(** * QRH-256: a shallow embedding of [qrh_256.c]

    Words are [Z] with the wrap-around of [uint32_t] written out ([u32]);
    values of type [size_t] wrap at 64 bits ([u64], an LP64 target).
    Arrays ([state], [blocks], byte buffers) are lists read with [!!!] and
    updated with [<[i := v]>]; the code only reads and writes inside its
    arrays, so neither the default of [!!!] nor the no-op of an insert past
    the end is ever met on a run.  Bytes are [Z] values in the range
    [0, 256).  The [while] loop of [qrh_256] runs on fuel and is shown to
    exit with the fuel it is given. *)

From Stdlib Require Import ZArith List Lia.
From stdpp Require Import base list option numbers.

Open Scope Z_scope.

(** ** Build constants *)

Definition QRH_HASH_SIZE : nat := 32.
Definition QRH_BLOCK_SIZE : nat := 64.
Definition QRH_WORDS_SIZE : nat := 16.
Definition QRH_CONSTANTS_SIZE : nat := 16.
Definition QRH_HALF_ROUNDS : nat := 4.
Definition QRH_DIFFUSIONS : nat := 4.
Definition QRH_MATRIX_ROUNDS : nat := 2.

(** ** Fixed-width arithmetic *)

(** Truncation to [uint8_t], [uint32_t] and [size_t]/[uint64_t]: the low
    8, 32 and 64 bits are kept. *)
Definition u8 (x : Z) : Z := Z.land x 0xFF.
Definition u32 (x : Z) : Z := Z.land x 0xFFFFFFFF.
Definition u64 (x : Z) : Z := Z.land x 0xFFFFFFFFFFFFFFFF.

(** [ROTL32(v, n)] expands to [((v << n) | (v >> (32 - n)))]; on a
    [uint32_t] operand the left shift is truncated to 32 bits. *)
Definition ROTL32 (v n : Z) : Z :=
  Z.lor (u32 (v ≪ n)) (v ≫ (32 - n)).

(** The same macro on an operand of type [size_t]: the shifts are carried
    out in 64 bits, nothing is masked back to 32. *)
Definition ROTL32_size (v n : Z) : Z :=
  Z.lor (u64 (v ≪ n)) (v ≫ (32 - n)).

(** [for (i = 0; i < n; i++) body] *)
Definition for_loop {S : Type} (n : nat) (body : nat → S → S) (s : S) : S :=
  fold_left (λ s i, body i s) (seq 0 n) s.

(** ** The constant table *)

Definition constants : list Z :=
  [ 0x6A09E667; 0xBB67AE85; 0x3C6EF372; 0xA54FF53A;
    0x510E527F; 0x9B05688C; 0x1F83D9AB; 0x5BE0CD19;
    0xC1059ED8; 0x367CD507; 0x3070DD17; 0xF70E5939;
    0xFFC00B31; 0x68581511; 0x64F98FA7; 0xBEFA4FA4 ].

(** ** Word codec *)

Definition read_u32_le (buf : list Z) (offset : nat) : Z * nat :=
  let val := Z.lor (Z.lor (Z.lor (buf !!! offset)
                                 (u32 ((buf !!! (offset + 1)%nat) ≪ 8)))
                          (u32 ((buf !!! (offset + 2)%nat) ≪ 16)))
                   (u32 ((buf !!! (offset + 3)%nat) ≪ 24)) in
  (val, (offset + 4)%nat).

(** Modelled from the spec: [read_u32_le_dynamic] is called by [qrh_256] but
    defined in no file at hand.  The spec's partial variant "reads 1-3
    available bytes and treats missing high-order bytes as zero (no
    out-of-bounds read)", and the offset advances by the bytes consumed. *)
Definition read_u32_le_dynamic (buf : list Z) (offset n : nat) : Z * nat :=
  (for_loop n (λ k val, Z.lor val ((buf !!! (offset + k)%nat) ≪ (8 * Z.of_nat k))) 0,
   (offset + n)%nat).

(** [wrno_u32_le(buf + pos, val)] *)
Definition wrno_u32_le (buf : list Z) (pos : nat) (val : Z) : list Z :=
  let buf := <[pos := Z.land val 0xFF]> buf in
  let buf := <[(pos + 1)%nat := u8 (val ≫ 8)]> buf in
  let buf := <[(pos + 2)%nat := u8 (val ≫ 16)]> buf in
  <[(pos + 3)%nat := u8 (val ≫ 24)]> buf.

(** ** Mixing primitives *)

Definition round4 (a b c d : Z) : Z * Z * Z * Z :=
  let a := u32 (a + b) in let b := Z.lxor b d in
  let b := ROTL32 b 9 in  let a := ROTL32 a 6 in
  let c := u32 (c + d) in let a := Z.lxor a c in
  let d := ROTL32 d 12 in let c := ROTL32 c 13 in
  let a := u32 (a + b) in let c := Z.lxor c d in
  let b := ROTL32 d 14 in let a := ROTL32 a 25 in
  let c := u32 (c + d) in let a := Z.lxor a b in
  let d := ROTL32 b 23 in let c := ROTL32 c 30 in
  (a, b, c, d).

Definition add3 (a b c : Z) : Z * Z * Z :=
  let a := u32 (a + u32 (c + b)) in
  let b := u32 (b + u32 (a + c)) in
  let c := u32 (c + u32 (a + b)) in
  let a := u32 (a + ROTL32 c 19) in
  let b := u32 (b + ROTL32 a 13) in
  let c := u32 (c + ROTL32 b 8) in
  (a, b, c).

Definition round_matrix (a b c d : Z) : Z * Z * Z * Z :=
  let '(b, c, a) := add3 b c a in
  let '(a, c, d) := add3 a c d in
  let '(a, b, c, d) := round4 a b c d in
  let '(b, d, a) := add3 b d a in
  let '(b, c, d) := add3 b c d in
  (a, b, c, d).

Definition round2 (a b : Z) : Z * Z :=
  let a := u32 (a + Z.lor b a) in
  let b := u32 (b + Z.lor b a) in
  let a := u32 (a + ROTL32 a 13) in
  let b := u32 (b + ROTL32 b 14) in
  let b := Z.lxor b (ROTL32 b 15) in
  let a := u32 (a + ROTL32 a 26) in
  let a := u32 (a + ROTL32 a 11) in
  let b := u32 (b + ROTL32 b 10) in
  let b := Z.lxor b (ROTL32 (u32 (a + b)) 23) in
  let a := Z.lxor a (ROTL32 (u32 (b + a)) 10) in
  (a, b).

(** ** State permutation *)

(** [round2(&state[i], &state[j])] *)
Definition round2_at (i j : nat) (state : list Z) : list Z :=
  let '(a, b) := round2 (state !!! i) (state !!! j) in
  <[j := b]> (<[i := a]> state).

(** [round_matrix(&state[i], &state[j], &state[k], &state[l])] *)
Definition round_matrix_at (i j k l : nat) (state : list Z) : list Z :=
  let '(a, b, c, d) :=
    round_matrix (state !!! i) (state !!! j) (state !!! k) (state !!! l) in
  <[l := d]> (<[k := c]> (<[j := b]> (<[i := a]> state))).

(** Body of the first loop of [qrh_run_state]. *)
Definition half_round (state : list Z) : list Z :=
  let state := round2_at 0 5 state in
  let state := round2_at 1 6 state in
  let state := round2_at 2 7 state in
  let state := round2_at 3 4 state in

  let state := round2_at 4 9 state in
  let state := round2_at 5 10 state in
  let state := round2_at 6 11 state in
  let state := round2_at 7 8 state in

  let state := round2_at 8 13 state in
  let state := round2_at 9 14 state in
  let state := round2_at 10 15 state in
  let state := round2_at 11 12 state in

  let state := round2_at 12 1 state in
  let state := round2_at 13 2 state in
  let state := round2_at 14 3 state in
  round2_at 15 0 state.

(** Body of the second loop of [qrh_run_state]. *)
Definition matrix_round (state : list Z) : list Z :=
  (* column quarter-rounds *)
  let state := round_matrix_at 0 4 8 12 state in
  let state := round_matrix_at 1 5 9 13 state in
  let state := round_matrix_at 2 6 10 14 state in
  let state := round_matrix_at 3 7 11 15 state in
  (* diagonal quarter-rounds *)
  let state := round_matrix_at 0 5 10 15 state in
  let state := round_matrix_at 1 6 11 12 state in
  let state := round_matrix_at 2 7 8 13 state in
  round_matrix_at 3 4 9 14 state.

(** Body of the loop of [qrh_diffuse_words]: the two statements at index [i],
    each reading the array as it stands. *)
Definition diffuse_word (i : nat) (words : list Z) : list Z :=
  let words :=
    <[i := Z.lxor (words !!! i) (ROTL32 (words !!! ((i + 7) mod 16)%nat) 11)]> words in
  <[i := u32 (words !!! i + ROTL32 (words !!! ((i + 3) mod 16)%nat) 17)]> words.

Definition qrh_diffuse_words (words : list Z) : list Z :=
  for_loop QRH_WORDS_SIZE diffuse_word words.

Definition qrh_run_state (state : list Z) : list Z :=
  let state := Nat.iter QRH_HALF_ROUNDS half_round state in
  let state := Nat.iter QRH_MATRIX_ROUNDS matrix_round state in
  Nat.iter QRH_DIFFUSIONS qrh_diffuse_words state.

(** ** Length injection *)

(** The word index [x] that iteration [i] of the loop of [qrh_length_inject]
    derives.  [ROTL32((uint32_t)block_index ^ combined, 23)] is expanded as
    the preprocessor does it: the macro argument is not parenthesised, and
    the shifts bind tighter than [^]. *)
Definition inject_index (combined schema block_index input_len : Z) (i : nat) : Z :=
  let idx_seed :=
    Z.lxor (Z.lxor (Z.lxor combined
                           (ROTL32 schema 11))
                   (Z.lor (Z.lxor (u32 block_index) (u32 (combined ≪ 23)))
                          (Z.lxor (u32 block_index) (combined ≫ (32 - 23)))))
           (u32 (Z.of_nat i *
                 (constants !!! Z.to_nat
                    (u64 ((Z.of_nat i + 1) * ROTL32_size input_len 15)
                       mod Z.of_nat QRH_CONSTANTS_SIZE)))) in
  let x := Z.land idx_seed (Z.of_nat QRH_WORDS_SIZE - 1) in
  Z.land (x + Z.of_nat i) (Z.of_nat QRH_WORDS_SIZE - 1).

(** One iteration of that loop, on [(words, *schema, combined)]. *)
Definition inject_iter (input_len block_index : Z) (i : nat)
    (st : list Z * Z * Z) : list Z * Z * Z :=
  let '(words, schema, combined) := st in
  let x := Z.to_nat (inject_index combined schema block_index input_len i) in
  let words := <[x := Z.lxor (words !!! x) (ROTL32 combined 9)]> words in
  let schema := u32 (schema + words !!! x) in
  let schema := Z.lxor schema (words !!! x) in
  let schema := ROTL32 schema 19 in
  let combined := Z.lxor combined schema in
  (words, schema, combined).

Definition qrh_length_inject (words : list Z) (input_len block_index schema : Z)
    : list Z * Z :=
  let bit_len := u64 (input_len * 8) in
  let len_lo := u32 bit_len in
  let len_hi := u32 (bit_len ≫ 32) in
  let blk := u32 block_index in
  let combined := schema in
  let combined := Z.lxor combined (ROTL32 blk 22) in
  let combined := Z.lxor combined (ROTL32 len_lo 17) in
  let combined := Z.lxor combined (ROTL32 len_hi 13) in
  let schema := Z.lxor schema combined in
  let combined := u32 (combined + schema) in
  let '(words, schema, _) :=
    for_loop 4 (inject_iter input_len block_index) (words, schema, combined) in
  (words, schema).

(** ** Block absorption loop *)

(** The variables that live across iterations of the [while] loop of
    [qrh_256].  [blocks] is declared before the loop. *)
Record absorb_cfg : Type := AbsorbCfg {
  offset : nat;
  state : list Z;
  blocks : list Z;
  schema : Z
}.

(** [schema = constants[(input_len << 8) % QRH_CONSTANTS_SIZE]] *)
Definition schema_seed (input_len : Z) : Z :=
  constants !!! Z.to_nat (u64 (input_len ≪ 8) mod Z.of_nat QRH_CONSTANTS_SIZE).

Definition absorb_init (input_len : nat) : absorb_cfg :=
  {| offset := 0;
     state := take QRH_WORDS_SIZE constants;
     blocks := replicate QRH_WORDS_SIZE 0;
     schema := schema_seed (Z.of_nat input_len) |}.

(** The two decoding steps of the loop body: the block buffer and
    [buffer_offset] after them. *)
Definition decode_chunk (input : list Z) (offset block_size : nat)
    (blocks : list Z) : list Z * nat :=
  let buffer_offset := offset in
  let full_words := (block_size / 4)%nat in
  let partial_block := (block_size mod 4)%nat in
  let '(blocks, buffer_offset) :=
    for_loop full_words
      (λ i '(blocks, buffer_offset),
         let '(val, buffer_offset) := read_u32_le input buffer_offset in
         (<[i := val]> blocks, buffer_offset))
      (blocks, buffer_offset) in
  if (partial_block =? 0)%nat then (blocks, buffer_offset)
  else
    let '(val, buffer_offset) :=
      read_u32_le_dynamic input buffer_offset partial_block in
    (<[full_words := u32 val]> blocks, buffer_offset).

(** [state[i] ^= blocks[i] + ROTL32(blocks[(i + 1) % 16], i)] for all [i]. *)
Definition mix_block (blocks state : list Z) : list Z :=
  for_loop QRH_WORDS_SIZE
    (λ i state,
       <[i := Z.lxor (state !!! i)
                     (u32 (blocks !!! i +
                           ROTL32 (blocks !!! ((i + 1) mod 16)%nat) (Z.of_nat i)))]> state)
    state.

(** One pass through the body of the [while] loop. *)
Definition absorb_iter (input : list Z) (input_len : nat) (c : absorb_cfg)
    : absorb_cfg :=
  let block_size :=
    if (input_len - offset c <? QRH_BLOCK_SIZE)%nat
    then (input_len - offset c)%nat else QRH_BLOCK_SIZE in
  let '(blocks, buffer_offset) := decode_chunk input (offset c) block_size (blocks c) in
  let state := mix_block blocks (state c) in
  let '(state, schema) :=
    qrh_length_inject state (Z.of_nat input_len) (Z.of_nat (offset c)) (schema c) in
  let state := qrh_run_state state in
  {| offset := buffer_offset; state := state; blocks := blocks; schema := schema |}.

(** [while (offset < input_len) { ... }]; [None] when the fuel runs out
    before the loop exits. *)
Fixpoint absorb_loop (fuel : nat) (input : list Z) (input_len : nat)
    (c : absorb_cfg) : option absorb_cfg :=
  if (offset c <? input_len)%nat then
    match fuel with
    | O => None
    | S fuel => absorb_loop fuel input input_len (absorb_iter input input_len c)
    end
  else Some c.

(** The finishing pass: [for (i = 0; i < 16; i += 4)
    state[i] ^= ROTL32(input_len << (((i * 5 + 7) % 16) + 10), 6)].  The
    right-hand side is a [size_t]; the store truncates it to 32 bits. *)
Definition whiten (input_len : Z) (state : list Z) : list Z :=
  fold_left
    (λ state i,
       let shift := (Z.of_nat i * 5 + 7) mod 16 + 10 in
       <[i := u32 (Z.lxor (state !!! i)
                          (ROTL32_size (u64 (input_len ≪ shift)) 6))]> state)
    [0; 4; 8; 12]%nat state.

Definition qrh_finalize (words out : list Z) : list Z :=
  for_loop (QRH_HASH_SIZE / 4)
    (λ i out, wrno_u32_le out (i * 4) (words !!! i)) out.

(** [qrh_256(input, input_len, out)] with [input_len = length input]; the
    result is the contents of [out] on return. *)
Definition qrh_256 (input out : list Z) : option (list Z) :=
  let input_len := length input in
  c ← absorb_loop input_len input input_len (absorb_init input_len);
  Some (qrh_finalize (whiten (Z.of_nat input_len) (state c)) out).

Definition calloc (n : nat) : list Z := replicate n 0.

(** [memcpy(dst + pos, src, n)] *)
Definition memcpy (dst : list Z) (pos : nat) (src : list Z) (n : nat) : list Z :=
  list_inserts pos (take n src) dst.

Definition qrh_alloc_256 (input : list Z) : option (list Z) :=
  let hash := calloc QRH_HASH_SIZE in
  qrh_256 input hash.

(** ** HMAC *)

Definition qrh_256_hmac (key bytes : list Z) : option (list Z) :=
  let key_len := length key in
  let bytes_len := length bytes in
  let key_block := replicate QRH_BLOCK_SIZE 0 in
  let in_padding := replicate QRH_BLOCK_SIZE 0 in
  let out_padding := replicate QRH_BLOCK_SIZE 0 in
  key_block ←
    (if (QRH_BLOCK_SIZE <? key_len)%nat then
       key_hash ← qrh_alloc_256 key;
       Some (memcpy key_block 0 key_hash QRH_HASH_SIZE)
     else Some (memcpy key_block 0 key key_len));
  let '(out_padding, in_padding) :=
    for_loop QRH_BLOCK_SIZE
      (λ i '(out_padding, in_padding),
         (<[i := Z.lxor (key_block !!! i) 0x5c]> out_padding,
          <[i := Z.lxor (key_block !!! i) 0x36]> in_padding))
      (out_padding, in_padding) in
  let inner_data := calloc (QRH_BLOCK_SIZE + bytes_len) in
  let inner_data := memcpy inner_data 0 in_padding QRH_BLOCK_SIZE in
  let inner_data := memcpy inner_data QRH_BLOCK_SIZE bytes bytes_len in
  inner_hash ← qrh_alloc_256 inner_data;
  let outer_data := calloc (QRH_BLOCK_SIZE + QRH_HASH_SIZE) in
  let outer_data := memcpy outer_data 0 out_padding QRH_BLOCK_SIZE in
  let outer_data := memcpy outer_data QRH_BLOCK_SIZE inner_hash QRH_HASH_SIZE in
  qrh_alloc_256 outer_data.

(** ** Reference vectors *)

(** "The quick brown fox jumps over the lazy dog" *)
Definition fox_dog : list Z :=
  [84; 104; 101; 32; 113; 117; 105; 99; 107; 32; 98; 114; 111; 119; 110; 32;
   102; 111; 120; 32; 106; 117; 109; 112; 115; 32; 111; 118; 101; 114; 32;
   116; 104; 101; 32; 108; 97; 122; 121; 32; 100; 111; 103].

(** The same sentence ending in "dof". *)
Definition fox_dof : list Z := take 42 fox_dog ++ [102].

(** ** Serialization *)

(** The four bytes [wrno_u32_le] stores for one word, in address order. *)
Definition le_bytes (val : Z) : list Z :=
  [Z.land val 0xFF; u8 (val ≫ 8); u8 (val ≫ 16); u8 (val ≫ 24)].

(** ** The call sites of the permutation, as data *)

(** The index pairs of the sixteen [round2] calls of one half round, in
    program order, in the four groups the source sets apart. *)
Definition half_round_layers : list (list (nat * nat)) :=
  [ [(0, 5); (1, 6); (2, 7); (3, 4)];
    [(4, 9); (5, 10); (6, 11); (7, 8)];
    [(8, 13); (9, 14); (10, 15); (11, 12)];
    [(12, 1); (13, 2); (14, 3); (15, 0)] ]%nat.

(** A layer moved up by [k] positions, indices taken modulo 16. *)
Definition shift_layer (k : nat) (layer : list (nat * nat)) : list (nat * nat) :=
  map (λ '(i, j), ((i + k) mod 16, (j + k) mod 16)%nat) layer.

(** Follows the claim's words: the first three layers pair indices at a
    stride of 4, the final layer wraps around. *)
Definition stride_4_layers : list (list (nat * nat)) :=
  [ [(0, 4); (1, 5); (2, 6); (3, 7)];
    [(4, 8); (5, 9); (6, 10); (7, 11)];
    [(8, 12); (9, 13); (10, 14); (11, 15)];
    [(12, 1); (13, 2); (14, 3); (15, 0)] ]%nat.

(** A half round that applies [round2] along those layers. *)
Definition half_round_stride_4 (state : list Z) : list Z :=
  foldl (λ s '(i, j), round2_at i j s) state (concat stride_4_layers).

(** The index groups of the [round_matrix] calls of one matrix round. *)
Definition column_groups : list (nat * nat * nat * nat) :=
  [(0, 4, 8, 12); (1, 5, 9, 13); (2, 6, 10, 14); (3, 7, 11, 15)]%nat.

Definition diagonal_groups : list (nat * nat * nat * nat) :=
  [(0, 5, 10, 15); (1, 6, 11, 12); (2, 7, 8, 13); (3, 4, 9, 14)]%nat.

(** ** Mixing steps addressed by operand *)

(** The four words [a], [b], [c], [d] a matrix round works on. *)
Inductive slot : Type := SA | SB | SC | SD.

Definition quad : Type := Z * Z * Z * Z.

Definition slot_get (x : slot) (q : quad) : Z :=
  let '(a, b, c, d) := q in
  match x with SA => a | SB => b | SC => c | SD => d end.

Definition slot_put (x : slot) (v : Z) (q : quad) : quad :=
  let '(a, b, c, d) := q in
  match x with
  | SA => (v, b, c, d) | SB => (a, v, c, d)
  | SC => (a, b, v, d) | SD => (a, b, c, v)
  end.

Definition slot_eqb (x y : slot) : bool :=
  match x, y with
  | SA, SA | SB, SB | SC, SC | SD, SD => true
  | _, _ => false
  end.

Definition distinct3 (t : slot * slot * slot) : bool :=
  let '(x, y, z) := t in
  negb (slot_eqb x y) && negb (slot_eqb x z) && negb (slot_eqb y z).

Definition distinct4 (r : slot * slot * slot * slot) : bool :=
  let '(w, x, y, z) := r in
  distinct3 (x, y, z) &&
  negb (slot_eqb w x) && negb (slot_eqb w y) && negb (slot_eqb w z).

(** [add3(&x, &y, &z)] on three different words of the four. *)
Definition add3_on (t : slot * slot * slot) (q : quad) : quad :=
  let '(x, y, z) := t in
  let '(x', y', z') := add3 (slot_get x q) (slot_get y q) (slot_get z q) in
  slot_put z z' (slot_put y y' (slot_put x x' q)).

(** [round4(&w, &x, &y, &z)] on the four words in some order. *)
Definition round4_on (r : slot * slot * slot * slot) (q : quad) : quad :=
  let '(w, x, y, z) := r in
  let '(w', x', y', z') :=
    round4 (slot_get w q) (slot_get x q) (slot_get y q) (slot_get z q) in
  slot_put z z' (slot_put y y' (slot_put x x' (slot_put w w' q))).

(** Follows the spec's words: "one triple-mix, a quarter-round, and two
    further triple-mixes around four words"; the words each step takes are
    left open. *)
Definition one_then_two_triple_mixes
    (t1 : slot * slot * slot) (r : slot * slot * slot * slot)
    (t2 t3 : slot * slot * slot) (q : quad) : quad :=
  add3_on t3 (add3_on t2 (round4_on r (add3_on t1 q))).

Definition slots : list slot := [SA; SB; SC; SD].

Definition all_triples : list (slot * slot * slot) :=
  filter (λ t, distinct3 t = true)
    (x ← slots; y ← slots; z ← slots; [(x, y, z)]).

Definition all_orders : list (slot * slot * slot * slot) :=
  filter (λ r, distinct4 r = true)
    (w ← slots; x ← slots; y ← slots; z ← slots; [(w, x, y, z)]).

Definition quad_eqb (p q : quad) : bool :=
  let '(a, b, c, d) := p in
  let '(a', b', c', d') := q in
  (a =? a') && (b =? b') && (c =? c') && (d =? d').

(** No composition of the claimed shape yields [target] from [q]. *)
Definition no_one_then_two (q target : quad) : bool :=
  forallb (λ t1,
    let q1 := add3_on t1 q in
    forallb (λ r,
      let q2 := round4_on r q1 in
      forallb (λ t2,
        let q3 := add3_on t2 q2 in
        forallb (λ t3, negb (quad_eqb (add3_on t3 q3) target)) all_triples)
      all_triples)
    all_orders)
  all_triples.

(** ** The diffusion sweep as the spec words it *)

(** Follows the spec's words: both reads of every index are taken from the
    values the state held before the sweep began. *)
Definition diffuse_from_snapshot (words : list Z) : list Z :=
  for_loop QRH_WORDS_SIZE
    (λ i out,
       <[i := u32 (Z.lxor (words !!! i)
                          (ROTL32 (words !!! ((i + 7) mod 16)%nat) 11)
                   + ROTL32 (words !!! ((i + 3) mod 16)%nat) 17)]> out)
    words.

(** What index [j] (possibly past the end, before reduction modulo 16) holds
    when iteration [i < j] of the sweep reads it: the old word while [j] is
    still ahead, the already updated word once [j] has wrapped around. *)
Definition swept_source (words : list Z) (j : nat) : Z :=
  if (j <? 16)%nat then words !!! j
  else qrh_diffuse_words words !!! (j - 16)%nat.

(** ** The block buffer as the spec words it *)

(** Follows the spec's words: "zero the block buffer" at the start of a
    chunk. *)
Definition zero_blocks (c : absorb_cfg) : absorb_cfg :=
  {| offset := offset c; state := state c;
     blocks := replicate QRH_WORDS_SIZE 0; schema := schema c |}.

(** The number of block-buffer words a chunk of [block_size] bytes
    populates. *)
Definition populated_words (block_size : nat) : nat :=
  ((block_size + 3) / 4)%nat.

(** A 68-byte input: a full chunk of [0xFF] bytes, then the four bytes of
    the little-endian word 1. *)
Definition two_chunk_input : list Z := replicate 64 0xFF ++ [1; 0; 0; 0].

(** ** Value ranges *)

(** What a [uint32_t] and a [uint8_t] can hold. *)
Definition word32 (x : Z) : Prop := 0 ≤ x < 2 ^ 32.
Definition is_byte (x : Z) : Prop := 0 ≤ x < 2 ^ 8.

(** The variables of the absorption loop hold values of their C types. *)
Definition cfg_ok (c : absorb_cfg) : Prop :=
  length (state c) = QRH_WORDS_SIZE ∧ Forall word32 (state c) ∧
  word32 (schema c).

(** ** The hash on a buffer that extends past the input *)

(** [qrh_256(input, input_len, out)] where [input] points into a buffer that
    may hold more than [input_len] bytes. *)
Definition qrh_256_buf (input : list Z) (input_len : nat) (out : list Z)
    : option (list Z) :=
  c ← absorb_loop input_len input input_len (absorb_init input_len);
  Some (qrh_finalize (whiten (Z.of_nat input_len) (state c)) out).

(** The number of chunks of at most [QRH_BLOCK_SIZE] bytes in [input_len]
    bytes. *)
Definition chunk_count (input_len : nat) : nat :=
  ((input_len + 63) / 64)%nat.

(** * Properties *)

(** The digests printed in the README are reproduced by the embedding. *)
Example fox_dog_digest :
  qrh_alloc_256 fox_dog =
  Some [0x17; 0xf4; 0x74; 0xbc; 0xe7; 0x44; 0xeb; 0xf2; 0x3a; 0x17; 0xce; 0x10;
        0x98; 0x3e; 0xf0; 0x91; 0x98; 0xc7; 0x9c; 0xac; 0x62; 0xfb; 0xbd; 0xad;
        0xc4; 0x91; 0x35; 0x3d; 0xdb; 0x15; 0xd6; 0xdd].
Proof. vm_compute. reflexivity. Qed.

Example fox_dof_digest :
  qrh_alloc_256 fox_dof =
  Some [0xcc; 0x67; 0xcd; 0x66; 0xc8; 0xf5; 0x45; 0x9e; 0xdf; 0x06; 0x3e; 0x82;
        0x8f; 0x68; 0x23; 0x4e; 0x5c; 0x9a; 0xeb; 0x1c; 0x9b; 0xcb; 0xc2; 0x80;
        0xa0; 0xe2; 0x0d; 0xc8; 0xa7; 0x62; 0x54; 0x38].
Proof. vm_compute. reflexivity. Qed.

(** The mixing functions are kept folded in proofs about the loops around
    them. *)
Arguments round2 : simpl never.
Arguments round4 : simpl never.
Arguments add3 : simpl never.
Arguments round_matrix : simpl never.
Arguments qrh_run_state : simpl never.
Arguments qrh_length_inject : simpl never.
Arguments inject_index : simpl never.
Arguments decode_chunk : simpl never.
Arguments mix_block : simpl never.
Arguments absorb_iter : simpl never.
Arguments whiten : simpl never.
Arguments qrh_finalize : simpl never.

(** ** Truncation is reduction modulo a power of two *)

Lemma u8_mod x : u8 x = x mod 2 ^ 8.
Proof. unfold u8. change 0xFF with (Z.ones 8). apply Z.land_ones. lia. Qed.

Lemma u32_mod x : u32 x = x mod 2 ^ 32.
Proof. unfold u32. change 0xFFFFFFFF with (Z.ones 32). apply Z.land_ones. lia. Qed.

Lemma u64_mod x : u64 x = x mod 2 ^ 64.
Proof.
  unfold u64. change 0xFFFFFFFFFFFFFFFF with (Z.ones 64). apply Z.land_ones. lia.
Qed.

Lemma u32_range x : 0 ≤ u32 x < 2 ^ 32.
Proof. rewrite u32_mod. apply Z.mod_pos_bound. lia. Qed.

(** ** Loops *)

Section ForLoop.
Context {S : Type}.
Implicit Types (body : nat → S → S) (s : S).

Lemma for_loop_0 body s : for_loop 0 body s = s.
Proof. reflexivity. Qed.

Lemma for_loop_S n body s :
  for_loop (Datatypes.S n) body s = body n (for_loop n body s).
Proof.
  unfold for_loop. rewrite seq_S, fold_left_app. reflexivity.
Qed.

(** An invariant that every iteration keeps holds when the loop ends. *)
Lemma for_loop_invariant (P : nat → S → Prop) n body s :
  P 0%nat s →
  (∀ i s, (i < n)%nat → P i s → P (Datatypes.S i) (body i s)) →
  P n (for_loop n body s).
Proof.
  intros H0 Hstep. induction n as [|n IH]; [exact H0|].
  rewrite for_loop_S. apply Hstep; [lia|]. apply IH.
  intros i s' Hi. apply Hstep. lia.
Qed.
End ForLoop.

(** ** Schema seed *)

Lemma shifted_length_index (input_len : Z) :
  u64 (input_len ≪ 8) mod Z.of_nat QRH_CONSTANTS_SIZE = 0.
Proof.
  rewrite u64_mod. unfold QRH_CONSTANTS_SIZE. rewrite Z.shiftl_mul_pow2 by lia.
  change (2 ^ 8) with 256. change (2 ^ 64) with 18446744073709551616.
  change (Z.of_nat 16) with 16.
  Z.div_mod_to_equations. lia.
Qed.

(** C10: the schema accumulator is seeded with [constants[0] = 0x6A09E667]
    whatever the input length is, because [(input_len << 8) % 16] is 0 for
    every [input_len]; so every hash starts its absorption from a
    configuration whose schema is that constant. *)
Theorem schema_seed_is_constant :
  (∀ input_len : Z,
     u64 (input_len ≪ 8) mod Z.of_nat QRH_CONSTANTS_SIZE = 0 ∧
     schema_seed input_len = 0x6A09E667) ∧
  (∀ input : list Z, schema (absorb_init (length input)) = 0x6A09E667) ∧
  constants !!! 0%nat = 0x6A09E667.
Proof.
  assert (Hseed : ∀ n, schema_seed n = 0x6A09E667).
  { intros n. unfold schema_seed. rewrite shifted_length_index. reflexivity. }
  split; [|split].
  - intros n. split; [apply shifted_length_index | apply Hseed].
  - intros input. simpl. apply Hseed.
  - reflexivity.
Qed.

(** ** Length injection *)

Lemma land_15_bounds (z : Z) : 0 ≤ Z.land z 15 < 16.
Proof.
  change 15 with (Z.ones 4). rewrite Z.land_ones by lia.
  apply Z.mod_pos_bound. lia.
Qed.

Lemma inject_index_bounds combined schema block_index input_len i :
  0 ≤ inject_index combined schema block_index input_len i < 16.
Proof. unfold inject_index. apply land_15_bounds. Qed.

Lemma inject_iter_length input_len block_index i words schema combined :
  length (inject_iter input_len block_index i (words, schema, combined)).1.1
  = length words.
Proof. simpl. apply length_insert. Qed.

Lemma qrh_length_inject_length words input_len block_index schema :
  length (qrh_length_inject words input_len block_index schema).1 = length words.
Proof.
  unfold qrh_length_inject.
  match goal with
  | |- context [for_loop 4 ?f ?s] =>
      pose proof (for_loop_invariant
                    (λ _ st, length st.1.1 = length words) 4 f s) as Hinv
  end.
  destruct (for_loop _ _ _) as [[w s] c]. simpl in *. apply Hinv; [reflexivity|].
  intros i [[w' s'] c'] _ Hw. rewrite inject_iter_length. exact Hw.
Qed.

(** C8: in every call of length injection, whatever the state, the input
    length, the block index and the schema are, the index [x] derived in each
    iteration satisfies [0 <= x < 16]: the word it reads and updates is one of
    the 16 state words, the constant-table lookup of the same iteration is in
    range too, and the state keeps its 16 words. *)
Theorem length_inject_index_in_bounds :
  (∀ combined schema block_index input_len (i : nat),
     0 ≤ inject_index combined schema block_index input_len i < 16 ∧
     (Z.to_nat (inject_index combined schema block_index input_len i)
        < QRH_WORDS_SIZE)%nat ∧
     0 ≤ u64 ((Z.of_nat i + 1) * ROTL32_size input_len 15)
           mod Z.of_nat QRH_CONSTANTS_SIZE < 16) ∧
  (∀ words input_len block_index schema,
     length (qrh_length_inject words input_len block_index schema).1
     = length words).
Proof.
  split.
  - intros combined schema block_index input_len i.
    pose proof (inject_index_bounds combined schema block_index input_len i).
    split; [assumption|]. split.
    + unfold QRH_WORDS_SIZE. lia.
    + apply Z.mod_pos_bound. reflexivity.
  - apply qrh_length_inject_length.
Qed.

(** ** State permutation: the half round *)

(** The three loops of [qrh_run_state], with the default round counts. *)
Lemma qrh_run_state_loops state :
  qrh_run_state state
  = Nat.iter 4 qrh_diffuse_words
      (Nat.iter 2 matrix_round (Nat.iter 4 half_round state)).
Proof. unfold qrh_run_state. reflexivity. Qed.

Ltac by_decision := apply (bool_decide_unpack _); vm_compute; exact I.

(** C2 (counterexample): with the constant table as state, the half round
    of the code differs from a half round whose first three layers pair the
    indices 4 apart (0-4, 1-5, ..., 11-15) before the wraparound layer. *)
Lemma half_round_not_stride_4 :
  half_round constants ≠ half_round_stride_4 constants.
Proof. vm_compute. discriminate. Qed.

(** C2 (amended): for every state, one half round applies the pairwise
    mixing round [round2] to the words at sixteen index pairs, in four layers
    of four pairs whose first indices run through 0..15 in order and whose
    second indices cover 0..15 once.  The first three layers pair 0-5, 1-6,
    2-7, 3-4, then 4-9, 5-10, 6-11, 7-8, then 8-13, 9-14, 10-15, 11-12: within
    a layer the second index is 5, 5, 5 and 1 above the first, never 4, and
    each layer is the one before it moved up by 4.  The final wraparound layer
    pairs 12 with 1, 13 with 2, 14 with 3 and 15 with 0. *)
Theorem half_round_layers_cover (state : list Z) :
  qrh_run_state state
  = Nat.iter 4 qrh_diffuse_words
      (Nat.iter 2 matrix_round (Nat.iter 4 half_round state)) ∧
  half_round state
  = foldl (λ s '(i, j),
             let '(a, b) := round2 (s !!! i) (s !!! j) in
             <[j := b]> (<[i := a]> s))
      state
      [(0, 5); (1, 6); (2, 7); (3, 4);
       (4, 9); (5, 10); (6, 11); (7, 8);
       (8, 13); (9, 14); (10, 15); (11, 12);
       (12, 1); (13, 2); (14, 3); (15, 0)]%nat ∧
  half_round_layers
  = [ [(0, 5); (1, 6); (2, 7); (3, 4)];
      [(4, 9); (5, 10); (6, 11); (7, 8)];
      [(8, 13); (9, 14); (10, 15); (11, 12)];
      [(12, 1); (13, 2); (14, 3); (15, 0)] ]%nat ∧
  length half_round_layers = 4%nat ∧
  Forall (λ layer, length layer = 4%nat) half_round_layers ∧
  (concat half_round_layers).*1 = seq 0 16 ∧
  NoDup (concat half_round_layers).*2 ∧
  Forall (λ j, j < 16)%nat (concat half_round_layers).*2 ∧
  Forall (λ layer, (λ '(i, j), j - i)%nat <$> layer = [5; 5; 5; 1]%nat)
    (take 3 half_round_layers) ∧
  Forall (λ '(i, j), j ≠ (i + 4)%nat ∧ i ≠ (j + 4)%nat)
    (concat half_round_layers) ∧
  (∀ k, (k < 3)%nat →
     half_round_layers !!! S k = shift_layer 4 (half_round_layers !!! k)) ∧
  Forall (λ '(i, j), j = (4 * ((i / 4 + 1) mod 4) + (i + 1) mod 4)%nat)
    (concat half_round_layers) ∧
  half_round_layers !!! 3%nat = [(12, 1); (13, 2); (14, 3); (15, 0)]%nat.
Proof.
  split; [apply qrh_run_state_loops|].
  split.
  { change (λ (s : list Z) '(i, j),
              let '(a, b) := round2 (s !!! i) (s !!! j) in
              <[j := b]> (<[i := a]> s))
      with (λ (s : list Z) '(i, j), round2_at i j s).
    cbv [half_round foldl]. reflexivity. }
  split; [reflexivity|].
  split; [reflexivity|].
  split; [by_decision|].
  split; [reflexivity|].
  split; [by_decision|].
  split; [by_decision|].
  split; [repeat constructor|].
  split; [repeat constructor; lia|].
  split.
  { intros k Hk. destruct k as [|[|[|k]]]; [reflexivity..|lia]. }
  split; [repeat constructor|].
  reflexivity.
Qed.

(** ** State permutation: the matrix round *)

Ltac name_mixes :=
  repeat match goal with
    | |- context [add3 ?x ?y ?z] =>
        is_var x; is_var y; is_var z;
        destruct (add3 x y z) as [[? ?] ?]; cbn [slot_get slot_put]
    | |- context [round4 ?w ?x ?y ?z] =>
        is_var w; is_var x; is_var y; is_var z;
        destruct (round4 w x y z) as [[[? ?] ?] ?]; cbn [slot_get slot_put]
    end.

Lemma round_matrix_unfold a b c d :
  round_matrix a b c d
  = add3_on (SB, SC, SD)
      (add3_on (SB, SD, SA)
         (round4_on (SA, SB, SC, SD)
            (add3_on (SA, SC, SD)
               (add3_on (SB, SC, SA) (a, b, c, d))))).
Proof.
  unfold round_matrix, add3_on, round4_on. cbn [slot_get slot_put].
  name_mixes. reflexivity.
Qed.

Lemma all_triples_complete t : distinct3 t = true → In t all_triples.
Proof.
  destruct t as [[[] []] []]; intros H; try discriminate H;
    vm_compute; repeat first [left; reflexivity | right].
Qed.

Lemma all_orders_complete r : distinct4 r = true → In r all_orders.
Proof.
  destruct r as [[[[] []] []] []]; intros H; try discriminate H;
    vm_compute; repeat first [left; reflexivity | right].
Qed.

Lemma quad_eqb_refl q : quad_eqb q q = true.
Proof.
  destruct q as [[[a b] c] d]. unfold quad_eqb.
  rewrite !Z.eqb_refl. reflexivity.
Qed.

Lemma no_one_then_two_sound q target t1 r t2 t3 :
  no_one_then_two q target = true →
  distinct3 t1 = true → distinct4 r = true →
  distinct3 t2 = true → distinct3 t3 = true →
  one_then_two_triple_mixes t1 r t2 t3 q ≠ target.
Proof.
  unfold no_one_then_two. intros H H1 Hr H2 H3 Heq.
  rewrite forallb_forall in H.
  specialize (H t1 (all_triples_complete _ H1)). cbv zeta in H.
  rewrite forallb_forall in H.
  specialize (H r (all_orders_complete _ Hr)). cbv zeta in H.
  rewrite forallb_forall in H.
  specialize (H t2 (all_triples_complete _ H2)). cbv zeta in H.
  rewrite forallb_forall in H.
  specialize (H t3 (all_triples_complete _ H3)).
  unfold one_then_two_triple_mixes in Heq. rewrite Heq, quad_eqb_refl in H.
  discriminate H.
Qed.

(** C4 (counterexample): on the words 1, 2, 3, 4 the matrix round differs
    from every composition of one triple-mix, one quarter-round and two further
    triple-mixes, whichever words of the four each step is given. *)
Lemma round_matrix_not_one_triple_mix_first :
  ¬ ∃ t1 r t2 t3,
      distinct3 t1 = true ∧ distinct4 r = true ∧
      distinct3 t2 = true ∧ distinct3 t3 = true ∧
      round_matrix 1 2 3 4 = one_then_two_triple_mixes t1 r t2 t3 (1, 2, 3, 4).
Proof.
  intros (t1 & r & t2 & t3 & H1 & Hr & H2 & H3 & Heq).
  apply (no_one_then_two_sound (1, 2, 3, 4) (round_matrix 1 2 3 4) t1 r t2 t3);
    [vm_compute; reflexivity | assumption.. | symmetry; exact Heq].
Qed.

(** C4 (amended): for every four words the matrix round is two triple-mixes
    ([add3(b,c,a)], [add3(a,c,d)]), then one quarter-round [round4(a,b,c,d)],
    then two further triple-mixes ([add3(b,d,a)], [add3(b,c,d)]); one matrix
    round of the permutation applies it to the four column groups and then to
    the four diagonal groups. *)
Theorem round_matrix_two_triple_mixes_first :
  (∀ a b c d,
     round_matrix a b c d
     = add3_on (SB, SC, SD)
         (add3_on (SB, SD, SA)
            (round4_on (SA, SB, SC, SD)
               (add3_on (SA, SC, SD)
                  (add3_on (SB, SC, SA) (a, b, c, d)))))) ∧
  (∀ state,
     qrh_run_state state
     = Nat.iter 4 qrh_diffuse_words
         (Nat.iter 2 matrix_round (Nat.iter 4 half_round state)) ∧
     matrix_round state
     = foldl (λ s '(i, j, k, l), round_matrix_at i j k l s) state
         (column_groups ++ diagonal_groups)) ∧
  column_groups
  = [(0, 4, 8, 12); (1, 5, 9, 13); (2, 6, 10, 14); (3, 7, 11, 15)]%nat ∧
  diagonal_groups
  = [(0, 5, 10, 15); (1, 6, 11, 12); (2, 7, 8, 13); (3, 4, 9, 14)]%nat.
Proof.
  split; [exact round_matrix_unfold|].
  split; [|split; reflexivity].
  intros state. split; [apply qrh_run_state_loops|].
  cbv [matrix_round column_groups diagonal_groups foldl app]. reflexivity.
Qed.

(** ** Diffusion sweep *)

(** A list of known length, opened into its elements. *)
Tactic Notation "unpack_list" ident(l) ident(H) integer(n) :=
  do n (destruct l as [|? l]; [discriminate H|]);
  destruct l; [clear H | discriminate H].

(** The sweep run with the constant table as state does not agree with a
    sweep computed from a snapshot. *)
Example snapshot_sweep_differs :
  qrh_diffuse_words constants ≠ diffuse_from_snapshot constants.
Proof. vm_compute. discriminate. Qed.

(** C3 (counterexample): with the constant table as state, the swept word 9
    is not the value obtained from the words the state held before the sweep:
    its first read, index (9 + 7) mod 16 = 0, sees word 0 as already
    updated. *)
Lemma diffuse_reads_updated_words :
  ¬ (∀ i, (i < 16)%nat →
       qrh_diffuse_words constants !!! i
       = u32 (Z.lxor (constants !!! i)
                     (ROTL32 (constants !!! ((i + 7) mod 16)%nat) 11)
              + ROTL32 (constants !!! ((i + 3) mod 16)%nat) 17)).
Proof.
  intros H. specialize (H 9%nat ltac:(lia)). vm_compute in H. discriminate H.
Qed.

(** C3 (amended): for every 16-word state, one sweep handles the indices
    0..15 in ascending order and in place: word [i] becomes
    [(word[i] ^ rotate(r7, 11)) + rotate(r3, 17)], where [r7] and [r3] are the
    words at (i+7) mod 16 and (i+3) mod 16 as the array holds them at that
    moment, that is the value from before the sweep when the index read is
    above [i], and the value already updated in this sweep when the index has
    wrapped around below [i] (i >= 9 for the first read, i >= 13 for the
    second). *)
Theorem diffuse_sweep_sequential (words : list Z) (i : nat) :
  length words = 16%nat → (i < 16)%nat →
  qrh_diffuse_words words !!! i
  = u32 (Z.lxor (words !!! i) (ROTL32 (swept_source words (i + 7)) 11)
         + ROTL32 (swept_source words (i + 3)) 17)
  ∧ swept_source words (i + 7)
    = (if (i <? 9)%nat then words !!! (i + 7)%nat
       else qrh_diffuse_words words !!! (i + 7 - 16)%nat)
  ∧ swept_source words (i + 3)
    = (if (i <? 13)%nat then words !!! (i + 3)%nat
       else qrh_diffuse_words words !!! (i + 3 - 16)%nat)
  ∧ length (qrh_diffuse_words words) = 16%nat.
Proof.
  intros Hlen Hi. unpack_list words Hlen 16.
  do 16 (destruct i as [|i];
         [cbv -[Z.add Z.sub Z.land Z.lor Z.lxor Z.shiftl Z.shiftr];
          repeat split; reflexivity|]).
  lia.
Qed.

Lemma diffuse_sweep_sequential_witness :
  length constants = 16%nat ∧ (9 < 16)%nat ∧
  qrh_diffuse_words constants !!! 9%nat
  = u32 (Z.lxor (constants !!! 9%nat)
                (ROTL32 (qrh_diffuse_words constants !!! 0%nat) 11)
         + ROTL32 (constants !!! 12%nat) 17).
Proof.
  split; [reflexivity|]. split; [lia|].
  exact (proj1 (diffuse_sweep_sequential constants 9 eq_refl ltac:(lia))).
Defined.

(** ** The state keeps its size *)

Lemma round2_at_length i j state :
  length (round2_at i j state) = length state.
Proof.
  unfold round2_at. destruct (round2 _ _) as [a b].
  rewrite !length_insert. reflexivity.
Qed.

Lemma round_matrix_at_length i j k l state :
  length (round_matrix_at i j k l state) = length state.
Proof.
  unfold round_matrix_at. destruct (round_matrix _ _ _ _) as [[[a b] c] d].
  rewrite !length_insert. reflexivity.
Qed.

Lemma half_round_length state : length (half_round state) = length state.
Proof. unfold half_round. cbv zeta. rewrite !round2_at_length. reflexivity. Qed.

Lemma matrix_round_length state : length (matrix_round state) = length state.
Proof.
  unfold matrix_round. cbv zeta. rewrite !round_matrix_at_length. reflexivity.
Qed.

Lemma diffuse_word_length i words :
  length (diffuse_word i words) = length words.
Proof. unfold diffuse_word. cbv zeta. rewrite !length_insert. reflexivity. Qed.

Lemma qrh_diffuse_words_length words :
  length (qrh_diffuse_words words) = length words.
Proof.
  unfold qrh_diffuse_words.
  apply (for_loop_invariant (λ _ w, length w = length words)); [reflexivity|].
  intros i w _ Hw. rewrite diffuse_word_length. exact Hw.
Qed.

Lemma iter_length (f : list Z → list Z) n state :
  (∀ s, length (f s) = length s) →
  length (Nat.iter n f state) = length state.
Proof.
  intros Hf. induction n as [|n IH]; [reflexivity|].
  simpl. rewrite Hf. exact IH.
Qed.

Lemma qrh_run_state_length state :
  length (qrh_run_state state) = length state.
Proof.
  unfold qrh_run_state. cbv zeta.
  rewrite (iter_length _ _ _ qrh_diffuse_words_length).
  rewrite (iter_length _ _ _ matrix_round_length).
  apply (iter_length _ _ _ half_round_length).
Qed.

Lemma mix_block_length blocks state :
  length (mix_block blocks state) = length state.
Proof.
  unfold mix_block.
  apply (for_loop_invariant (λ _ s, length s = length state)); [reflexivity|].
  intros i s _ Hs. rewrite length_insert. exact Hs.
Qed.

Lemma whiten_length input_len state :
  length (whiten input_len state) = length state.
Proof. unfold whiten. simpl. rewrite !length_insert. reflexivity. Qed.

Lemma wrno_u32_le_length buf pos val :
  length (wrno_u32_le buf pos val) = length buf.
Proof. unfold wrno_u32_le. cbv zeta. rewrite !length_insert. reflexivity. Qed.

Lemma qrh_finalize_length words out :
  length (qrh_finalize words out) = length out.
Proof.
  unfold qrh_finalize.
  apply (for_loop_invariant (λ _ o, length o = length out)); [reflexivity|].
  intros i o _ Ho. rewrite wrno_u32_le_length. exact Ho.
Qed.

(** ** The absorption loop terminates *)

Lemma decode_chunk_offset input offset block_size blocks :
  (decode_chunk input offset block_size blocks).2 = (offset + block_size)%nat.
Proof.
  unfold decode_chunk. cbv zeta.
  match goal with
  | |- context [for_loop ?n ?f ?s] =>
      pose proof (for_loop_invariant
                    (λ i st, st.2 = (offset + 4 * i)%nat) n f s) as Hinv
  end.
  destruct (for_loop _ _ _) as [blocks' buffer_offset]. cbv beta in Hinv.
  assert (Hoff : buffer_offset = (offset + 4 * (block_size / 4))%nat).
  { apply Hinv; [cbn [snd]; lia|].
    intros i [b o] _ Ho. unfold read_u32_le. cbn [snd] in *. lia. }
  pose proof (Nat.div_mod_eq block_size 4) as Hdm.
  destruct (block_size mod 4 =? 0)%nat eqn:Hpartial.
  - apply Nat.eqb_eq in Hpartial. cbn [snd]. lia.
  - unfold read_u32_le_dynamic. cbn [snd]. lia.
Qed.

Lemma absorb_iter_offset input input_len c :
  offset (absorb_iter input input_len c)
  = (offset c + (if (input_len - offset c <? QRH_BLOCK_SIZE)%nat
                 then input_len - offset c else QRH_BLOCK_SIZE))%nat.
Proof.
  unfold absorb_iter. cbv zeta.
  match goal with
  | |- context [decode_chunk ?i ?o ?b ?bl] =>
      pose proof (decode_chunk_offset i o b bl) as Hoff;
      destruct (decode_chunk i o b bl) as [blocks' buffer_offset]
  end.
  destruct (qrh_length_inject _ _ _ _) as [state' schema'].
  cbn [offset snd] in *. exact Hoff.
Qed.

Lemma absorb_iter_state_length input input_len c :
  length (state (absorb_iter input input_len c)) = length (state c).
Proof.
  unfold absorb_iter. cbv zeta.
  destruct (decode_chunk _ _ _ _) as [blocks' buffer_offset].
  match goal with
  | |- context [qrh_length_inject ?w ?l ?b ?s] =>
      pose proof (qrh_length_inject_length w l b s) as Hinj;
      destruct (qrh_length_inject w l b s) as [state' schema']
  end.
  cbn [state fst] in *. rewrite qrh_run_state_length, Hinj.
  apply mix_block_length.
Qed.

(** With as much fuel as there are bytes left the loop exits, and the state
    it leaves has the size of the state it started from. *)
Lemma absorb_loop_total fuel input input_len c :
  (input_len - offset c ≤ fuel)%nat →
  ∃ c', absorb_loop fuel input input_len c = Some c' ∧
        length (state c') = length (state c) ∧
        (input_len ≤ offset c')%nat.
Proof.
  revert c. induction fuel as [|fuel IH]; intros c Hfuel; cbn [absorb_loop].
  - destruct (offset c <? input_len)%nat eqn:Hlt.
    + apply Nat.ltb_lt in Hlt. lia.
    + apply Nat.ltb_ge in Hlt. eauto.
  - destruct (offset c <? input_len)%nat eqn:Hlt.
    + apply Nat.ltb_lt in Hlt.
      destruct (IH (absorb_iter input input_len c)) as (c' & Hc' & Hlen & Hend).
      { rewrite absorb_iter_offset. unfold QRH_BLOCK_SIZE.
        destruct (input_len - offset c <? 64)%nat eqn:Hb;
          [apply Nat.ltb_lt in Hb | apply Nat.ltb_ge in Hb]; lia. }
      exists c'. rewrite absorb_iter_state_length in Hlen. eauto.
    + apply Nat.ltb_ge in Hlt. eauto.
Qed.

(** [qrh_256] returns for every input: the digest is the finalization of the
    whitened state the loop leaves, and that state has 16 words. *)
Lemma qrh_256_returns input out :
  ∃ c, absorb_loop (length input) input (length input)
         (absorb_init (length input)) = Some c ∧
       length (state c) = 16%nat ∧
       qrh_256 input out
       = Some (qrh_finalize (whiten (Z.of_nat (length input)) (state c)) out).
Proof.
  destruct (absorb_loop_total (length input) input (length input)
              (absorb_init (length input))) as (c & Hc & Hlen & _).
  { cbn [absorb_init offset]. lia. }
  exists c. split; [exact Hc|]. split; [exact Hlen|].
  unfold qrh_256. cbv zeta. rewrite Hc. reflexivity.
Qed.

(** ** Finalization *)

Lemma qrh_finalize_serialize words out :
  length words = 16%nat → length out = 32%nat →
  qrh_finalize words out = flat_map le_bytes (take 8 words).
Proof.
  intros Hw Ho. unpack_list words Hw 16. unpack_list out Ho 32.
  cbv -[Z.land Z.shiftr u8]. reflexivity.
Qed.

Lemma flat_map_le_bytes_length ws :
  length (flat_map le_bytes ws) = (4 * length ws)%nat.
Proof.
  induction ws as [|w ws IH]; [reflexivity|].
  cbn [flat_map le_bytes app length]. lia.
Qed.

(** ** Empty input *)

Lemma whiten_zero_term shift : ROTL32_size (u64 (0 ≪ shift)) 6 = 0.
Proof. rewrite Z.shiftl_0_l. reflexivity. Qed.

Lemma empty_loop_not_entered fuel c : absorb_loop fuel [] 0 c = Some c.
Proof. destruct fuel; reflexivity. Qed.

(** C5: on the empty input the absorption loop is not entered, every term
    the finishing pass XORs in is zero so the state stays the constant table,
    and the digest is the little-endian serialization of the first 8
    constants. *)
Theorem empty_input_digest (out : list Z) :
  length out = 32%nat →
  (∀ fuel, absorb_loop fuel [] 0 (absorb_init 0) = Some (absorb_init 0)) ∧
  (∀ shift, ROTL32_size (u64 (0 ≪ shift)) 6 = 0) ∧
  whiten 0 (state (absorb_init 0)) = state (absorb_init 0) ∧
  state (absorb_init 0) = constants ∧
  qrh_256 [] out
  = Some (flat_map le_bytes
            [0x6A09E667; 0xBB67AE85; 0x3C6EF372; 0xA54FF53A;
             0x510E527F; 0x9B05688C; 0x1F83D9AB; 0x5BE0CD19]) ∧
  qrh_256 [] out
  = Some [0x67; 0xE6; 0x09; 0x6A; 0x85; 0xAE; 0x67; 0xBB;
          0x72; 0xF3; 0x6E; 0x3C; 0x3A; 0xF5; 0x4F; 0xA5;
          0x7F; 0x52; 0x0E; 0x51; 0x8C; 0x68; 0x05; 0x9B;
          0xAB; 0xD9; 0x83; 0x1F; 0x19; 0xCD; 0xE0; 0x5B].
Proof.
  intros Hout.
  assert (Hwhiten : whiten 0 (state (absorb_init 0)) = state (absorb_init 0))
    by (vm_compute; reflexivity).
  assert (Hdigest : qrh_256 [] out
                    = Some (flat_map le_bytes (take 8 constants))).
  { unfold qrh_256. cbn [length]. rewrite empty_loop_not_entered.
    cbn [mbind option_bind]. change (Z.of_nat 0) with 0. rewrite Hwhiten.
    rewrite qrh_finalize_serialize by (reflexivity || exact Hout).
    reflexivity. }
  split; [intros fuel; apply empty_loop_not_entered|].
  split; [exact whiten_zero_term|].
  split; [exact Hwhiten|].
  split; [reflexivity|].
  split; [exact Hdigest|].
  rewrite Hdigest. vm_compute. reflexivity.
Qed.

Lemma empty_input_digest_witness :
  length (replicate 32 0) = 32%nat ∧
  qrh_256 [] (replicate 32 0)
  = Some [0x67; 0xE6; 0x09; 0x6A; 0x85; 0xAE; 0x67; 0xBB;
          0x72; 0xF3; 0x6E; 0x3C; 0x3A; 0xF5; 0x4F; 0xA5;
          0x7F; 0x52; 0x0E; 0x51; 0x8C; 0x68; 0x05; 0x9B;
          0xAB; 0xD9; 0x83; 0x1F; 0x19; 0xCD; 0xE0; 0x5B].
Proof.
  split; [reflexivity|].
  exact (proj2 (proj2 (proj2 (proj2 (proj2
           (empty_input_digest (replicate 32 0) eq_refl)))))).
Defined.

(** ** Buffers *)

Lemma memcpy_spec dst pos src n :
  (pos + n ≤ length dst)%nat → (n ≤ length src)%nat →
  memcpy dst pos src n = take pos dst ++ take n src ++ drop (pos + n) dst.
Proof.
  intros Hdst Hsrc. unfold memcpy.
  rewrite <- (take_drop pos dst) at 1.
  replace pos with (length (take pos dst) + 0)%nat at 1
    by (rewrite length_take; lia).
  rewrite list_inserts_app_r. f_equal.
  rewrite <- (take_drop n (drop pos dst)).
  rewrite list_inserts_0_r by (rewrite !length_take, length_drop; lia).
  rewrite drop_drop. reflexivity.
Qed.

(** A loop that stores [h i] at index [i] of each of two buffers fills them
    with the images of the indices. *)
Lemma fill_loop_lookup (h : nat → Z) n buf j :
  for_loop n (λ i buf, <[i := h i]> buf) buf !! j
  = if decide (j < n ∧ j < length buf)%nat then Some (h j) else buf !! j.
Proof.
  induction n as [|n IH].
  - rewrite for_loop_0. case_decide; [lia | reflexivity].
  - rewrite for_loop_S.
    assert (Hlen : length (for_loop n (λ i buf, <[i := h i]> buf) buf)
                   = length buf).
    { apply (for_loop_invariant (λ _ b, length b = length buf));
        [reflexivity|]. intros i b _ Hb. rewrite length_insert. exact Hb. }
    rewrite list_lookup_insert, Hlen, IH.
    repeat case_decide; try reflexivity; try lia.
    destruct_and!. subst. reflexivity.
Qed.

Lemma fill_loop_map (f : Z → Z) (src buf : list Z) n :
  length src = n → length buf = n →
  for_loop n (λ i buf, <[i := f (src !!! i)]> buf) buf = f <$> src.
Proof.
  intros <- Hlen. apply list_eq. intros j.
  rewrite (fill_loop_lookup (λ i, f (src !!! i))), list_lookup_fmap.
  destruct (decide _) as [[Hj _]|Hn].
  - destruct (lookup_lt_is_Some_2 src j Hj) as [x Hx].
    rewrite (list_lookup_total_correct _ _ _ Hx), Hx. reflexivity.
  - rewrite !lookup_ge_None_2 by lia. reflexivity.
Qed.

Lemma pair_loop_split {A B : Type} (F : nat → A → A) (G : nat → B → B) n a b :
  for_loop n (λ i '(a, b), (F i a, G i b)) (a, b)
  = (for_loop n F a, for_loop n G b).
Proof.
  induction n as [|n IH]; [reflexivity|].
  rewrite !for_loop_S, IH. reflexivity.
Qed.

(** ** Digest and tag *)

Lemma qrh_256_digest input out :
  length out = 32%nat →
  ∃ c digest,
    absorb_loop (length input) input (length input)
      (absorb_init (length input)) = Some c ∧
    qrh_256 input out = Some digest ∧
    digest = flat_map le_bytes
               (take 8 (whiten (Z.of_nat (length input)) (state c))) ∧
    length digest = 32%nat.
Proof.
  intros Hout. destruct (qrh_256_returns input out) as (c & Hc & Hlen & Hq).
  assert (Hw : length (whiten (Z.of_nat (length input)) (state c)) = 16%nat)
    by (rewrite whiten_length; exact Hlen).
  exists c, (qrh_finalize (whiten (Z.of_nat (length input)) (state c)) out).
  split; [exact Hc|]. split; [exact Hq|].
  split; [apply qrh_finalize_serialize; assumption|].
  rewrite qrh_finalize_length. exact Hout.
Qed.

Lemma qrh_alloc_256_digest input :
  ∃ digest, qrh_alloc_256 input = Some digest ∧ length digest = 32%nat.
Proof.
  destruct (qrh_256_digest input (calloc QRH_HASH_SIZE)) as (c & d & _ & Hd & _ & Hlen).
  { unfold calloc. apply length_replicate. }
  exists d. split; [exact Hd | exact Hlen].
Qed.

(** The digest does not depend on what the output buffer held before. *)
Lemma qrh_256_out_irrelevant input out1 out2 :
  length out1 = 32%nat → length out2 = 32%nat →
  qrh_256 input out1 = qrh_256 input out2.
Proof.
  intros H1 H2.
  destruct (qrh_256_digest input out1 H1) as (c1 & d1 & Hc1 & Hd1 & -> & _).
  destruct (qrh_256_digest input out2 H2) as (c2 & d2 & Hc2 & Hd2 & -> & _).
  rewrite Hd1, Hd2. congruence.
Qed.

(** The steps of [qrh_256_hmac], with its buffers written as lists. *)
Lemma qrh_256_hmac_steps key bytes :
  ∃ key_block inner tag,
    length key_block = 64%nat ∧
    (if (64 <? length key)%nat
     then ∃ key_hash, qrh_alloc_256 key = Some key_hash ∧
                      length key_hash = 32%nat ∧
                      key_block = key_hash ++ replicate 32 0
     else key_block = key ++ replicate (64 - length key) 0) ∧
    qrh_alloc_256 (((λ b, Z.lxor b 0x36) <$> key_block) ++ bytes) = Some inner ∧
    length inner = 32%nat ∧
    qrh_alloc_256 (((λ b, Z.lxor b 0x5c) <$> key_block) ++ inner) = Some tag ∧
    length tag = 32%nat ∧
    qrh_256_hmac key bytes = Some tag.
Proof.
  assert (Hkb : ∃ key_block,
             length key_block = 64%nat ∧
             (if (64 <? length key)%nat
              then ∃ key_hash, qrh_alloc_256 key = Some key_hash ∧
                               length key_hash = 32%nat ∧
                               key_block = key_hash ++ replicate 32 0
              else key_block = key ++ replicate (64 - length key) 0) ∧
             (if (QRH_BLOCK_SIZE <? length key)%nat
              then key_hash ← qrh_alloc_256 key;
                   Some (memcpy (replicate QRH_BLOCK_SIZE 0) 0 key_hash QRH_HASH_SIZE)
              else Some (memcpy (replicate QRH_BLOCK_SIZE 0) 0 key (length key)))
             = Some key_block).
  { unfold QRH_BLOCK_SIZE, QRH_HASH_SIZE.
    destruct (64 <? length key)%nat eqn:Hlong.
    - destruct (qrh_alloc_256_digest key) as (kh & Hkh & Hlen).
      exists (kh ++ replicate 32 0).
      split; [rewrite length_app, length_replicate; lia|].
      split; [eauto|].
      rewrite Hkh. cbn [mbind option_bind]. f_equal.
      rewrite memcpy_spec by (rewrite ?length_replicate; lia).
      rewrite take_0, take_ge by lia. reflexivity.
    - apply Nat.ltb_ge in Hlong.
      exists (key ++ replicate (64 - length key) 0).
      split; [rewrite length_app, length_replicate; lia|].
      split; [reflexivity|]. f_equal.
      rewrite memcpy_spec by (rewrite ?length_replicate; lia).
      rewrite take_0, take_ge, drop_replicate by lia. reflexivity. }
  destruct Hkb as (key_block & Hlen & Hshape & Hcode).
  set (in_pad := (λ b, Z.lxor b 0x36) <$> key_block).
  set (out_pad := (λ b, Z.lxor b 0x5c) <$> key_block).
  destruct (qrh_alloc_256_digest (in_pad ++ bytes)) as (inner & Hinner & Hilen).
  destruct (qrh_alloc_256_digest (out_pad ++ inner)) as (tag & Htag & Htlen).
  exists key_block, inner, tag.
  split; [exact Hlen|]. split; [exact Hshape|].
  split; [exact Hinner|]. split; [exact Hilen|].
  split; [exact Htag|]. split; [exact Htlen|].
  unfold qrh_256_hmac. cbv zeta. rewrite Hcode. cbn [mbind option_bind].
  rewrite pair_loop_split.
  unfold QRH_BLOCK_SIZE, QRH_HASH_SIZE, calloc.
  rewrite (fill_loop_map (λ b, Z.lxor b 0x5c) key_block),
    (fill_loop_map (λ b, Z.lxor b 0x36) key_block)
    by (rewrite ?length_replicate; auto).
  fold in_pad out_pad.
  assert (Hip : length in_pad = 64%nat) by (unfold in_pad; rewrite length_fmap; exact Hlen).
  assert (Hop : length out_pad = 64%nat) by (unfold out_pad; rewrite length_fmap; exact Hlen).
  assert (Hin : memcpy (memcpy (replicate (64 + length bytes) 0) 0 in_pad 64)
                  64 bytes (length bytes) = in_pad ++ bytes).
  { rewrite (memcpy_spec (replicate _ _) 0) by (rewrite ?length_replicate; lia).
    rewrite take_0, take_ge, drop_replicate by lia. cbn [app].
    rewrite memcpy_spec by (rewrite ?length_app, ?length_replicate; lia).
    rewrite take_app_length' by lia. rewrite take_ge by lia.
    rewrite drop_ge by (rewrite length_app, length_replicate; lia).
    rewrite app_nil_r. reflexivity. }
  rewrite Hin, Hinner. cbn [mbind option_bind].
  assert (Hout : memcpy (memcpy (replicate (64 + 32) 0) 0 out_pad 64)
                   64 inner 32 = out_pad ++ inner).
  { rewrite (memcpy_spec (replicate _ _) 0) by (rewrite ?length_replicate; lia).
    rewrite take_0, take_ge, drop_replicate by lia. cbn [app].
    rewrite memcpy_spec by (rewrite ?length_app, ?length_replicate; lia).
    rewrite take_app_length' by lia. rewrite take_ge by lia.
    rewrite drop_ge by (rewrite length_app, length_replicate; lia).
    rewrite app_nil_r. reflexivity. }
  rewrite Hout. exact Htag.
Qed.

(** C6: for every key and message, [qrh_256_hmac] works on a 64-byte key
    block that is the 32-byte hash of the key followed by 32 zero bytes when
    the key is longer than 64 bytes, and the key followed by zero bytes up to
    64 otherwise; with [in_pad[i] = key_block[i] ^ 0x36] and
    [out_pad[i] = key_block[i] ^ 0x5c] over all 64 bytes, the tag returned is
    [hash(out_pad || hash(in_pad || message))]. *)
Theorem hmac_construction (key bytes : list Z) :
  ∃ key_block inner tag,
    length key_block = 64%nat ∧
    (if (64 <? length key)%nat
     then ∃ key_hash, qrh_alloc_256 key = Some key_hash ∧
                      length key_hash = 32%nat ∧
                      key_block = key_hash ++ replicate 32 0
     else key_block = key ++ replicate (64 - length key) 0) ∧
    qrh_alloc_256 (((λ b, Z.lxor b 0x36) <$> key_block) ++ bytes) = Some inner ∧
    qrh_alloc_256 (((λ b, Z.lxor b 0x5c) <$> key_block) ++ inner) = Some tag ∧
    qrh_256_hmac key bytes = Some tag.
Proof.
  destruct (qrh_256_hmac_steps key bytes)
    as (key_block & inner & tag & Hlen & Hshape & Hinner & _ & Htag & _ & Hmac).
  exists key_block, inner, tag. auto.
Qed.

(** C7: for every input, the empty one included, [qrh_256] fills a 32-byte
    output buffer with a 32-byte digest, and for every key and message the
    HMAC tag has 32 bytes; the digest is the little-endian serialization,
    four bytes a word, of words 0 to 7 of the final state, and finalization
    gives the same bytes for any two 16-word states that agree on words 0 to
    7: words 8 to 15 are not written out. *)
Theorem digest_and_tag_32_bytes (input out key bytes words : list Z) :
  length out = 32%nat → length words = 16%nat →
  (∃ c digest,
     absorb_loop (length input) input (length input)
       (absorb_init (length input)) = Some c ∧
     qrh_256 input out = Some digest ∧
     length digest = 32%nat ∧
     digest = flat_map le_bytes
                (take 8 (whiten (Z.of_nat (length input)) (state c)))) ∧
  (∃ digest, qrh_alloc_256 input = Some digest ∧ length digest = 32%nat) ∧
  (∃ tag, qrh_256_hmac key bytes = Some tag ∧ length tag = 32%nat) ∧
  qrh_finalize words out = flat_map le_bytes (take 8 words) ∧
  (∀ words', length words' = 16%nat → take 8 words' = take 8 words →
             qrh_finalize words' out = qrh_finalize words out).
Proof.
  intros Hout Hwords.
  split.
  { destruct (qrh_256_digest input out Hout) as (c & d & Hc & Hd & Heq & Hlen).
    exists c, d. auto. }
  split; [apply qrh_alloc_256_digest|].
  split.
  { destruct (qrh_256_hmac_steps key bytes)
      as (_ & _ & tag & _ & _ & _ & _ & _ & Hlen & Hmac).
    exists tag. auto. }
  split; [apply qrh_finalize_serialize; assumption|].
  intros words' Hlen' Htake.
  rewrite !qrh_finalize_serialize by assumption. rewrite Htake. reflexivity.
Qed.

Lemma digest_and_tag_32_bytes_witness :
  length (replicate 32 7) = 32%nat ∧ length constants = 16%nat ∧
  (∃ digest, qrh_256 fox_dog (replicate 32 7) = Some digest ∧
             length digest = 32%nat) ∧
  (∃ tag, qrh_256_hmac fox_dof fox_dog = Some tag ∧ length tag = 32%nat) ∧
  qrh_finalize constants (replicate 32 7)
  = flat_map le_bytes (take 8 constants).
Proof.
  split; [reflexivity|]. split; [reflexivity|].
  destruct (digest_and_tag_32_bytes fox_dog (replicate 32 7) fox_dof fox_dog
              constants eq_refl eq_refl)
    as ((c & d & _ & Hd & Hlen & _) & _ & Htag & Hfin & _).
  split; [exists d; split; assumption|].
  split; assumption.
Defined.

(** C9: [qrh_256] and [qrh_256_hmac] are functions of their byte inputs
    alone: two evaluations of [qrh_256] on the same bytes return the same
    32-byte digest, whatever the two output buffers held before, and two
    evaluations of [qrh_256_hmac] on the same key and message return the same
    32-byte tag. *)
Theorem digest_and_tag_deterministic
    (input1 input2 out1 out2 key1 key2 bytes1 bytes2 : list Z) :
  input1 = input2 → length out1 = 32%nat → length out2 = 32%nat →
  key1 = key2 → bytes1 = bytes2 →
  (∃ digest, qrh_256 input1 out1 = Some digest ∧
             qrh_256 input2 out2 = Some digest ∧
             length digest = 32%nat) ∧
  (∃ tag, qrh_256_hmac key1 bytes1 = Some tag ∧
          qrh_256_hmac key2 bytes2 = Some tag ∧
          length tag = 32%nat).
Proof.
  intros <- Hout1 Hout2 <- <-. split.
  - destruct (qrh_256_digest input1 out1 Hout1) as (c & d & _ & Hd & _ & Hlen).
    exists d. split; [exact Hd|]. split; [|exact Hlen].
    rewrite <- (qrh_256_out_irrelevant input1 out1 out2 Hout1 Hout2). exact Hd.
  - destruct (qrh_256_hmac_steps key1 bytes1)
      as (_ & _ & tag & _ & _ & _ & _ & _ & Hlen & Hmac).
    exists tag. auto.
Qed.

Lemma digest_and_tag_deterministic_witness :
  length (replicate 32 0) = 32%nat ∧ length (replicate 32 0xAA) = 32%nat ∧
  (∃ digest, qrh_256 fox_dog (replicate 32 0) = Some digest ∧
             qrh_256 fox_dog (replicate 32 0xAA) = Some digest ∧
             length digest = 32%nat) ∧
  (∃ tag, qrh_256_hmac fox_dof fox_dog = Some tag ∧
          qrh_256_hmac fox_dof fox_dog = Some tag ∧
          length tag = 32%nat).
Proof.
  split; [reflexivity|]. split; [reflexivity|].
  exact (digest_and_tag_deterministic fox_dog fox_dog (replicate 32 0)
           (replicate 32 0xAA) fox_dof fox_dof fox_dog fox_dog
           eq_refl eq_refl eq_refl eq_refl eq_refl).
Defined.

(** ** The block buffer across chunks *)

(** In the first pass through the loop the buffer still holds the zeros of
    its declaration: the words beyond those the chunk populates are zero. *)
Lemma first_chunk_zero_padded input block_size j :
  (populated_words block_size ≤ j < 16)%nat →
  (decode_chunk input 0 block_size (replicate QRH_WORDS_SIZE 0)).1 !!! j = 0.
Proof.
  unfold populated_words, QRH_WORDS_SIZE. intros Hj.
  unfold decode_chunk. cbv zeta.
  match goal with
  | |- context [for_loop ?n ?f ?s] =>
      pose proof (for_loop_invariant
                    (λ i st, ∀ k, (i ≤ k < 16)%nat → st.1 !!! k = 0) n f s) as Hinv
  end.
  destruct (for_loop _ _ _) as [blocks' buffer_offset]. cbv beta in Hinv.
  assert (Hzero : ∀ k, (block_size / 4 ≤ k < 16)%nat → blocks' !!! k = 0).
  { apply Hinv.
    - intros k Hk. cbn [fst]. apply lookup_total_replicate_2. lia.
    - intros i [b o] _ Hb k Hk. unfold read_u32_le. cbn [fst] in *.
      rewrite list_lookup_total_insert_ne by lia. apply Hb. lia. }
  pose proof (Nat.div_mod_eq block_size 4) as Hdm.
  pose proof (Nat.mod_upper_bound block_size 4 ltac:(lia)) as Hmod.
  destruct (block_size mod 4 =? 0)%nat eqn:Hpartial.
  - apply Nat.eqb_eq in Hpartial. cbn [fst]. apply Hzero.
    assert ((block_size + 3) / 4 = block_size / 4)%nat as <-; [|lia].
    symmetry. apply (Nat.div_unique _ 4 _ 3); lia.
  - apply Nat.eqb_neq in Hpartial. unfold read_u32_le_dynamic. cbn [fst].
    assert ((block_size + 3) / 4 = S (block_size / 4))%nat as Hpop.
    { symmetry. apply (Nat.div_unique _ 4 _ (block_size mod 4 - 1)); lia. }
    rewrite list_lookup_total_insert_ne by lia. apply Hzero. lia.
Qed.

(** C1 (the code on a 68-byte input): the second chunk has four bytes and
    populates word 0 of the block buffer only; when the buffer is mixed into
    the state its words 1 to 15 still hold the words of the first chunk, not
    zeros, and the digest differs from the one obtained when the buffer is
    zeroed before the second chunk is decoded. *)
Theorem second_chunk_keeps_first_chunk_words :
  let c1 := absorb_iter two_chunk_input 68 (absorb_init 68) in
  let c2 := absorb_iter two_chunk_input 68 c1 in
  let c2_zeroed := absorb_iter two_chunk_input 68 (zero_blocks c1) in
  length two_chunk_input = 68%nat ∧
  offset c1 = 64%nat ∧
  absorb_loop 68 two_chunk_input 68 (absorb_init 68) = Some c2 ∧
  populated_words (68 - 64) = 1%nat ∧
  blocks c2 = 1 :: replicate 15 0xFFFFFFFF ∧
  blocks c2_zeroed = 1 :: replicate 15 0 ∧
  qrh_alloc_256 two_chunk_input
  = Some (qrh_finalize (whiten 68 (state c2)) (calloc 32)) ∧
  qrh_finalize (whiten 68 (state c2)) (calloc 32)
  ≠ qrh_finalize (whiten 68 (state c2_zeroed)) (calloc 32).
Proof.
  cbv zeta.
  do 7 (split; [vm_compute; reflexivity|]).
  vm_compute. discriminate.
Qed.

(** * Further properties of the code *)

(** ** Bits of truncated and shifted values *)

Lemma testbit_u8 x i : 0 ≤ i → Z.testbit (u8 x) i = (i <? 8) && Z.testbit x i.
Proof.
  intros Hi. unfold u8. change 0xFF with (Z.ones 8).
  rewrite Z.land_spec, Z.testbit_ones_nonneg by lia. apply andb_comm.
Qed.

Lemma testbit_u32 x i :
  0 ≤ i → Z.testbit (u32 x) i = (i <? 32) && Z.testbit x i.
Proof.
  intros Hi. unfold u32. change 0xFFFFFFFF with (Z.ones 32).
  rewrite Z.land_spec, Z.testbit_ones_nonneg by lia. apply andb_comm.
Qed.

Lemma word32_u32 x : word32 x ↔ u32 x = x.
Proof.
  unfold word32. rewrite u32_mod. split.
  - intros H. apply Z.mod_small. exact H.
  - intros <-. apply Z.mod_pos_bound. lia.
Qed.

Lemma u32_word32 x : word32 (u32 x).
Proof. apply u32_range. Qed.

Lemma word32_high_bits x i : word32 x → 32 ≤ i → Z.testbit x i = false.
Proof.
  intros Hx Hi. apply word32_u32 in Hx. rewrite <- Hx.
  rewrite testbit_u32 by lia.
  replace (i <? 32) with false by (symmetry; apply Z.ltb_ge; lia).
  reflexivity.
Qed.

Ltac push_bits :=
  repeat match goal with
    | |- context [Z.testbit ?a ?n] => rewrite (Z.testbit_neg_r a n) by lia
    | H : word32 ?a |- context [Z.testbit ?a ?n] =>
        rewrite (word32_high_bits a n H) by lia
    | |- context [Z.testbit 0 ?n] => rewrite (Z.bits_0 n)
    | |- context [Z.testbit (Z.lor ?a ?b) ?n] => rewrite (Z.lor_spec a b n)
    | |- context [Z.testbit (Z.lxor ?a ?b) ?n] => rewrite (Z.lxor_spec a b n)
    | |- context [Z.testbit (Z.land ?a ?b) ?n] => rewrite (Z.land_spec a b n)
    | |- context [Z.testbit (u8 ?a) ?n] => rewrite (testbit_u8 a n) by lia
    | |- context [Z.testbit (u32 ?a) ?n] => rewrite (testbit_u32 a n) by lia
    | |- context [Z.testbit (?a ≪ ?k) ?n] =>
        rewrite (Z.shiftl_spec a k n) by lia
    | |- context [Z.testbit (?a ≫ ?k) ?n] =>
        rewrite (Z.shiftr_spec a k n) by lia
    end.

Ltac decide_ltb :=
  repeat match goal with
    | |- context [(?a <? ?b)] =>
        first [ replace (a <? b) with true by (symmetry; apply Z.ltb_lt; lia)
              | replace (a <? b) with false by (symmetry; apply Z.ltb_ge; lia) ]
    end.

Ltac same_bits :=
  cbn [andb orb xorb];
  rewrite ?andb_false_r, ?orb_false_r, ?andb_true_r, ?orb_false_l,
    ?xorb_false_r, ?xorb_false_l;
  first [ reflexivity | f_equal; lia ].

(** A value is a [uint32_t] when its bits from 32 up are clear. *)
Lemma word32_of_bits x :
  (∀ i, 0 ≤ i → Z.testbit (u32 x) i = Z.testbit x i) → word32 x.
Proof. intros H. apply word32_u32. apply Z.bits_inj'. exact H. Qed.

Lemma lxor_word32 a b : word32 a → word32 b → word32 (Z.lxor a b).
Proof.
  intros Ha Hb. apply word32_of_bits. intros i Hi.
  destruct (Z.lt_ge_cases i 32); push_bits; decide_ltb; same_bits.
Qed.

Lemma lor_word32 a b : word32 a → word32 b → word32 (Z.lor a b).
Proof.
  intros Ha Hb. apply word32_of_bits. intros i Hi.
  destruct (Z.lt_ge_cases i 32); push_bits; decide_ltb; same_bits.
Qed.

Lemma shiftr_word32 v k : word32 v → 0 ≤ k → word32 (v ≫ k).
Proof.
  intros Hv Hk. apply word32_of_bits. intros i Hi.
  destruct (Z.lt_ge_cases i 32); push_bits; decide_ltb; same_bits.
Qed.

(** ** The rotation macro *)

Lemma ROTL32_word32 v n : word32 v → 0 ≤ n ≤ 32 → word32 (ROTL32 v n).
Proof.
  intros Hv Hn. unfold ROTL32.
  apply lor_word32; [apply u32_word32 | apply shiftr_word32; [assumption | lia]].
Qed.

(** On a 32-bit value [ROTL32(v, n)] with [0 < n < 32] is the rotation to
    the left by [n]: bit [i] of the result is bit [(i - n) mod 32] of [v]. *)
Lemma ROTL32_bits v n i :
  word32 v → 0 < n < 32 → 0 ≤ i < 32 →
  Z.testbit (ROTL32 v n) i = Z.testbit v ((i - n) mod 32).
Proof.
  intros Hv Hn Hi. unfold ROTL32.
  destruct (Z.lt_ge_cases i n).
  - replace ((i - n) mod 32) with (i + (32 - n))
      by (apply (Z.mod_unique_pos _ _ (-1)); lia).
    push_bits; decide_ltb; same_bits.
  - rewrite (Z.mod_small (i - n)) by lia.
    push_bits; decide_ltb; same_bits.
Qed.

(** Rotating on by the remaining count gives the operand back. *)
Lemma ROTL32_is_rotation_aux v n :
  word32 v → 0 < n < 32 →
  word32 (ROTL32 v n) ∧ ROTL32 (ROTL32 v n) (32 - n) = v.
Proof.
  intros Hv Hn.
  assert (Hr : word32 (ROTL32 v n)) by (apply ROTL32_word32; [assumption | lia]).
  split; [exact Hr|].
  apply Z.bits_inj'. intros i Hi.
  destruct (Z.lt_ge_cases i 32) as [Hlt|Hge].
  - rewrite ROTL32_bits by (assumption || lia).
    rewrite ROTL32_bits
      by (assumption || lia || (apply Z.mod_pos_bound; lia)).
    f_equal.
    apply eq_sym,
      (Z.mod_unique_pos _ _ (((i - (32 - n)) mod 32 - n - i) / 32)).
    + pose proof (Z.mod_pos_bound ((i - (32 - n)) mod 32 - n) 32). lia.
    + pose proof (Z.mod_pos_bound (i - (32 - n)) 32 ltac:(lia)).
      pose proof (Z.div_mod (i - (32 - n)) 32 ltac:(lia)).
      Z.div_mod_to_equations. lia.
  - rewrite (word32_high_bits v i Hv Hge).
    apply word32_high_bits; [|exact Hge].
    apply ROTL32_word32; [exact Hr | lia].
Qed.

Lemma ROTL32_0 v : word32 v → ROTL32 v 0 = v.
Proof.
  intros Hv. unfold ROTL32. apply Z.bits_inj'. intros i Hi.
  destruct (Z.lt_ge_cases i 32); push_bits; decide_ltb; same_bits.
Qed.

(** X4: on a 32-bit value and for a count [0 < n < 32], the macro [ROTL32]
    yields a 32-bit value whose bit [i] is bit [(i - n) mod 32] of the
    operand, and rotating on by [32 - n] gives the operand back; with the
    count 0, which the block mixing uses for word 0, it returns the operand. *)
Theorem ROTL32_is_rotation (v n : Z) :
  word32 v → 0 < n < 32 →
  word32 (ROTL32 v n) ∧
  (∀ i, 0 ≤ i < 32 → Z.testbit (ROTL32 v n) i = Z.testbit v ((i - n) mod 32)) ∧
  ROTL32 (ROTL32 v n) (32 - n) = v ∧
  ROTL32 v 0 = v.
Proof.
  intros Hv Hn.
  destruct (ROTL32_is_rotation_aux v n Hv Hn) as [Hr Hinv].
  split; [exact Hr|].
  split; [intros i Hi; apply ROTL32_bits; assumption|].
  split; [exact Hinv | apply ROTL32_0; exact Hv].
Qed.

Lemma ROTL32_is_rotation_witness :
  word32 0x80000001 ∧ 0 < 4 < 32 ∧
  ROTL32 (ROTL32 0x80000001 4) (32 - 4) = 0x80000001.
Proof.
  assert (Hw : word32 0x80000001) by (unfold word32; lia).
  split; [exact Hw|]. split; [lia|].
  exact (proj1 (proj2 (proj2
           (ROTL32_is_rotation 0x80000001 4 Hw ltac:(lia))))).
Defined.

(** ** Word codec *)

Lemma le_word_of_bytes val :
  Z.lor (Z.lor (Z.lor (Z.land val 0xFF) (u32 (u8 (val ≫ 8) ≪ 8)))
               (u32 (u8 (val ≫ 16) ≪ 16)))
        (u32 (u8 (val ≫ 24) ≪ 24))
  = u32 val.
Proof.
  apply Z.bits_inj'. intros i Hi.
  change (Z.land val 0xFF) with (u8 val).
  destruct (Z.lt_ge_cases i 8); [|destruct (Z.lt_ge_cases i 16);
    [|destruct (Z.lt_ge_cases i 24); [|destruct (Z.lt_ge_cases i 32)]]];
    push_bits; decide_ltb; same_bits.
Qed.

Lemma wrno_u32_le_layout pre b0 b1 b2 b3 rest val :
  wrno_u32_le (pre ++ b0 :: b1 :: b2 :: b3 :: rest) (length pre) val
  = pre ++ le_bytes val ++ rest.
Proof.
  unfold wrno_u32_le. cbv zeta.
  rewrite (insert_app_r_alt _ _ (length pre)) by lia.
  rewrite (insert_app_r_alt _ _ (length pre + 1)) by lia.
  rewrite (insert_app_r_alt _ _ (length pre + 2)) by lia.
  rewrite (insert_app_r_alt _ _ (length pre + 3)) by lia.
  replace (length pre - length pre)%nat with 0%nat by lia.
  replace (length pre + 1 - length pre)%nat with 1%nat by lia.
  replace (length pre + 2 - length pre)%nat with 2%nat by lia.
  replace (length pre + 3 - length pre)%nat with 3%nat by lia.
  reflexivity.
Qed.

Lemma split_at_word (buf : list Z) pos :
  (pos + 4 ≤ length buf)%nat →
  ∃ b0 b1 b2 b3,
    buf = take pos buf ++ b0 :: b1 :: b2 :: b3 :: drop (pos + 4) buf.
Proof.
  intros Hlen.
  pose proof (take_drop pos buf) as Hsplit.
  pose proof (length_drop buf pos) as Hd.
  pose proof (drop_drop buf 4 pos) as Hdd.
  destruct (drop pos buf) as [|b0 [|b1 [|b2 [|b3 rest]]]];
    cbn [length] in Hd; try lia.
  cbn [drop] in Hdd. rewrite <- Hdd.
  exists b0, b1, b2, b3. symmetry. exact Hsplit.
Qed.

Lemma wrno_u32_le_writes_four_bytes_aux (buf : list Z) (pos : nat) (val : Z) :
  (pos + 4 ≤ length buf)%nat →
  wrno_u32_le buf pos val = take pos buf ++ le_bytes val ++ drop (pos + 4) buf.
Proof.
  intros Hlen.
  destruct (split_at_word buf pos Hlen) as (b0 & b1 & b2 & b3 & Hbuf).
  assert (Hpos : pos = length (take pos buf)) by (rewrite length_take; lia).
  remember (take pos buf) as pre. remember (drop (pos + 4) buf) as rest.
  rewrite Hbuf, Hpos. apply wrno_u32_le_layout.
Qed.

(** X2: [wrno_u32_le] stores the four little-endian bytes of the word at
    [pos .. pos + 3], each a value below 256, and leaves every other byte of
    the buffer as it was. *)
Theorem wrno_u32_le_writes_four_bytes (buf : list Z) (pos : nat) (val : Z) :
  (pos + 4 ≤ length buf)%nat →
  wrno_u32_le buf pos val = take pos buf ++ le_bytes val ++ drop (pos + 4) buf ∧
  Forall is_byte (le_bytes val).
Proof.
  intros Hlen. split.
  - apply wrno_u32_le_writes_four_bytes_aux. exact Hlen.
  - unfold le_bytes. change (Z.land val 0xFF) with (u8 val).
    repeat constructor; rewrite u8_mod; apply Z.mod_pos_bound; lia.
Qed.

Lemma wrno_u32_le_writes_four_bytes_witness :
  (1 + 4 ≤ length [9; 9; 9; 9; 9; 9])%nat ∧
  wrno_u32_le [9; 9; 9; 9; 9; 9] 1 0x11223344 = [9; 0x44; 0x33; 0x22; 0x11; 9].
Proof.
  split; [cbn [length]; lia|].
  exact (proj1 (wrno_u32_le_writes_four_bytes [9; 9; 9; 9; 9; 9] 1 0x11223344
                  ltac:(cbn [length]; lia))).
Defined.

Lemma read_u32_le_layout pre val rest :
  read_u32_le (pre ++ le_bytes val ++ rest) (length pre)
  = (u32 val, (length pre + 4)%nat).
Proof.
  unfold read_u32_le. cbv zeta.
  rewrite (lookup_total_app_r pre _ (length pre)) by lia.
  rewrite (lookup_total_app_r pre _ (length pre + 1)) by lia.
  rewrite (lookup_total_app_r pre _ (length pre + 2)) by lia.
  rewrite (lookup_total_app_r pre _ (length pre + 3)) by lia.
  replace (length pre - length pre)%nat with 0%nat by lia.
  replace (length pre + 1 - length pre)%nat with 1%nat by lia.
  replace (length pre + 2 - length pre)%nat with 2%nat by lia.
  replace (length pre + 3 - length pre)%nat with 3%nat by lia.
  unfold le_bytes. cbn [app lookup_total list_lookup_total].
  rewrite le_word_of_bytes. reflexivity.
Qed.

(** X1: a word stored with [wrno_u32_le] is read back by [read_u32_le] at
    the same position, truncated to 32 bits, and the offset moves on by 4. *)
Theorem read_after_write_u32_le (buf : list Z) (pos : nat) (val : Z) :
  (pos + 4 ≤ length buf)%nat →
  read_u32_le (wrno_u32_le buf pos val) pos = (u32 val, (pos + 4)%nat).
Proof.
  intros Hlen.
  destruct (split_at_word buf pos Hlen) as (b0 & b1 & b2 & b3 & Hbuf).
  assert (Hpos : pos = length (take pos buf)) by (rewrite length_take; lia).
  remember (take pos buf) as pre. remember (drop (pos + 4) buf) as rest.
  rewrite Hbuf, Hpos. rewrite wrno_u32_le_layout.
  apply read_u32_le_layout.
Qed.

Lemma read_after_write_u32_le_witness :
  (2 + 4 ≤ length (replicate 8 0))%nat ∧
  read_u32_le (wrno_u32_le (replicate 8 0) 2 0x1DEADBEEF) 2
  = (0xDEADBEEF, 6%nat).
Proof.
  split; [cbn [length replicate]; lia|].
  exact (read_after_write_u32_le (replicate 8 0) 2 0x1DEADBEEF
           ltac:(cbn [length replicate]; lia)).
Defined.

(** ** The words stay 32-bit values *)

Lemma round2_word32 a b : word32 (round2 a b).1 ∧ word32 (round2 a b).2.
Proof.
  unfold round2. cbv zeta. cbn [fst snd].
  split; (apply lxor_word32;
          [apply u32_word32
          | apply ROTL32_word32; [apply u32_word32 | lia]]).
Qed.

Lemma add3_word32 a b c :
  word32 (add3 a b c).1.1 ∧ word32 (add3 a b c).1.2 ∧ word32 (add3 a b c).2.
Proof.
  unfold add3. cbv zeta. cbn [fst snd]. repeat split; apply u32_word32.
Qed.

Lemma round4_word32 a b c d :
  word32 d →
  word32 (round4 a b c d).1.1.1 ∧ word32 (round4 a b c d).1.1.2 ∧
  word32 (round4 a b c d).1.2 ∧ word32 (round4 a b c d).2.
Proof.
  intros Hd. unfold round4. cbv zeta. cbn [fst snd].
  assert (Hd1 : word32 (ROTL32 d 12)) by (apply ROTL32_word32; [assumption | lia]).
  assert (Hb2 : word32 (ROTL32 (ROTL32 d 12) 14))
    by (apply ROTL32_word32; [assumption | lia]).
  split; [|split; [exact Hb2|split]].
  - apply lxor_word32; [|exact Hb2].
    apply ROTL32_word32; [apply u32_word32 | lia].
  - apply ROTL32_word32; [apply u32_word32 | lia].
  - apply ROTL32_word32; [exact Hb2 | lia].
Qed.

Lemma round_matrix_word32 a b c d :
  word32 (round_matrix a b c d).1.1.1 ∧ word32 (round_matrix a b c d).1.1.2 ∧
  word32 (round_matrix a b c d).1.2 ∧ word32 (round_matrix a b c d).2.
Proof.
  unfold round_matrix.
  destruct (add3 b c a) as [[b1 c1] a1].
  pose proof (add3_word32 a1 c1 d) as (_ & _ & Hd2).
  destruct (add3 a1 c1 d) as [[a2 c2] d2]. cbn [fst snd] in Hd2.
  destruct (round4 a2 b1 c2 d2) as [[[a3 b3] c3] d3].
  pose proof (add3_word32 b3 d3 a3) as (_ & _ & Ha4).
  destruct (add3 b3 d3 a3) as [[b4 d4] a4]. cbn [fst snd] in Ha4.
  pose proof (add3_word32 b4 c3 d4) as (Hb5 & Hc5 & Hd5).
  destruct (add3 b4 c3 d4) as [[b5 c5] d5]. cbn [fst snd] in *.
  auto.
Qed.

Lemma round2_at_word32 i j state :
  Forall word32 state → Forall word32 (round2_at i j state).
Proof.
  intros H. unfold round2_at.
  pose proof (round2_word32 (state !!! i) (state !!! j)) as [Ha Hb].
  destruct (round2 _ _) as [a b]. cbn [fst snd] in *.
  auto using Forall_insert.
Qed.

Lemma round_matrix_at_word32 i j k l state :
  Forall word32 state → Forall word32 (round_matrix_at i j k l state).
Proof.
  intros H. unfold round_matrix_at.
  pose proof (round_matrix_word32 (state !!! i) (state !!! j)
                (state !!! k) (state !!! l)) as (Ha & Hb & Hc & Hd).
  destruct (round_matrix _ _ _ _) as [[[a b] c] d]. cbn [fst snd] in *.
  auto using Forall_insert.
Qed.

Lemma half_round_word32 state :
  Forall word32 state → Forall word32 (half_round state).
Proof.
  intros H. unfold half_round. cbv zeta.
  repeat apply round2_at_word32. exact H.
Qed.

Lemma matrix_round_word32 state :
  Forall word32 state → Forall word32 (matrix_round state).
Proof.
  intros H. unfold matrix_round. cbv zeta.
  repeat apply round_matrix_at_word32. exact H.
Qed.

Lemma diffuse_word_word32 i words :
  Forall word32 words → Forall word32 (diffuse_word i words).
Proof.
  intros H. unfold diffuse_word. cbv zeta.
  apply Forall_insert; [|apply u32_word32].
  destruct (decide (i < length words)%nat) as [Hi|Hi].
  - apply Forall_insert; [exact H|].
    apply lxor_word32; [apply Forall_lookup_total_1; assumption|].
    apply ROTL32_word32; [|lia].
    destruct (decide ((i + 7) mod 16 < length words)%nat) as [Hj|Hj].
    + apply Forall_lookup_total_1; assumption.
    + rewrite list_lookup_total_alt, lookup_ge_None_2 by lia.
      cbn. unfold word32. lia.
  - rewrite list_insert_ge by lia. exact H.
Qed.

Lemma qrh_diffuse_words_word32 words :
  Forall word32 words → Forall word32 (qrh_diffuse_words words).
Proof.
  intros H. unfold qrh_diffuse_words.
  apply (for_loop_invariant (λ _ w, Forall word32 w)); [exact H|].
  intros i w _ Hw. apply diffuse_word_word32. exact Hw.
Qed.

Lemma iter_word32 (f : list Z → list Z) n state :
  (∀ s, Forall word32 s → Forall word32 (f s)) →
  Forall word32 state → Forall word32 (Nat.iter n f state).
Proof.
  intros Hf Hs. induction n as [|n IH]; [exact Hs|].
  cbn [Nat.iter nat_rect]. apply Hf. exact IH.
Qed.

Lemma qrh_run_state_word32 state :
  Forall word32 state → Forall word32 (qrh_run_state state).
Proof.
  intros H. unfold qrh_run_state. cbv zeta.
  apply iter_word32; [exact qrh_diffuse_words_word32|].
  apply iter_word32; [exact matrix_round_word32|].
  apply iter_word32; [exact half_round_word32|]. exact H.
Qed.

Lemma mix_block_word32 blocks state :
  length state = 16%nat → Forall word32 state →
  Forall word32 (mix_block blocks state).
Proof.
  intros Hlen H. unfold mix_block, QRH_WORDS_SIZE.
  apply (for_loop_invariant
           (λ _ s, length s = 16%nat ∧ Forall word32 s)); [auto|].
  intros i s Hi [Hl Hs]. rewrite length_insert. split; [exact Hl|].
  apply Forall_insert; [exact Hs|].
  apply lxor_word32; [|apply u32_word32].
  apply Forall_lookup_total_1; [exact Hs | lia].
Qed.

Lemma inject_iter_ok input_len block_index i words schema combined :
  length words = 16%nat → Forall word32 words →
  word32 schema → word32 combined →
  let r := inject_iter input_len block_index i (words, schema, combined) in
  length r.1.1 = 16%nat ∧ Forall word32 r.1.1 ∧
  word32 r.1.2 ∧ word32 r.2.
Proof.
  intros Hlen Hw Hs Hc. cbv zeta. unfold inject_iter. cbv zeta. cbn [fst snd].
  pose proof (inject_index_bounds combined schema block_index input_len i) as Hx.
  set (x := Z.to_nat (inject_index combined schema block_index input_len i)).
  assert (Hxlt : (x < 16)%nat) by (unfold x; lia).
  set (words' := <[x := Z.lxor (words !!! x) (ROTL32 combined 9)]> words).
  assert (Hw' : Forall word32 words').
  { apply Forall_insert; [exact Hw|]. apply lxor_word32.
    - apply Forall_lookup_total_1; [exact Hw | lia].
    - apply ROTL32_word32; [exact Hc | lia]. }
  assert (Hlen' : length words' = 16%nat)
    by (unfold words'; rewrite length_insert; exact Hlen).
  assert (Hwx : word32 (words' !!! x))
    by (apply Forall_lookup_total_1; [exact Hw' | lia]).
  assert (Hs' : word32 (ROTL32 (Z.lxor (u32 (schema + words' !!! x))
                                       (words' !!! x)) 19)).
  { apply ROTL32_word32; [|lia].
    apply lxor_word32; [apply u32_word32 | exact Hwx]. }
  split; [exact Hlen'|]. split; [exact Hw'|]. split; [exact Hs'|].
  apply lxor_word32; assumption.
Qed.

Lemma qrh_length_inject_ok words input_len block_index schema :
  length words = 16%nat → Forall word32 words → word32 schema →
  let r := qrh_length_inject words input_len block_index schema in
  length r.1 = 16%nat ∧ Forall word32 r.1 ∧ word32 r.2.
Proof.
  intros Hlen Hw Hs. cbv zeta. unfold qrh_length_inject. cbv zeta.
  match goal with
  | |- context [for_loop 4 ?f ?s] =>
      pose proof (for_loop_invariant
                    (λ _ st, length st.1.1 = 16%nat ∧ Forall word32 st.1.1 ∧
                             word32 st.1.2 ∧ word32 st.2) 4 f s) as Hinv
  end.
  destruct (for_loop _ _ _) as [[w s] c]. cbn [fst snd] in *.
  assert (H : length w = 16%nat ∧ Forall word32 w ∧ word32 s ∧ word32 c).
  { apply Hinv.
    - split; [exact Hlen|]. split; [exact Hw|].
      assert (Hr : ∀ v n, 0 ≤ n ≤ 32 → word32 (ROTL32 (u32 v) n))
        by (intros; apply ROTL32_word32; [apply u32_word32 | assumption]).
      assert (Hc0 : word32
                (Z.lxor (Z.lxor (Z.lxor schema (ROTL32 (u32 block_index) 22))
                           (ROTL32 (u32 (u64 (input_len * 8))) 17))
                   (ROTL32 (u32 (u64 (input_len * 8) ≫ 32)) 13))).
      { repeat apply lxor_word32; try apply Hr; try lia. exact Hs. }
      split; [apply lxor_word32; assumption | apply u32_word32].
    - intros i [[w' s'] c'] _ (H1 & H2 & H3 & H4). cbn [fst snd] in *.
      apply (inject_iter_ok input_len block_index i w' s' c'); assumption. }
  tauto.
Qed.

Lemma absorb_init_ok input_len : cfg_ok (absorb_init input_len).
Proof.
  unfold cfg_ok, absorb_init. cbn [state schema].
  split; [reflexivity|]. split.
  - unfold word32. repeat constructor; lia.
  - unfold schema_seed. rewrite shifted_length_index.
    change (word32 0x6A09E667). unfold word32. lia.
Qed.

Lemma absorb_iter_ok input input_len c :
  cfg_ok c → cfg_ok (absorb_iter input input_len c).
Proof.
  intros (Hlen & Hw & Hs). unfold cfg_ok, absorb_iter. cbv zeta.
  destruct (decode_chunk _ _ _ _) as [blocks' buffer_offset].
  pose proof (qrh_length_inject_ok (mix_block blocks' (state c))
                (Z.of_nat input_len) (Z.of_nat (offset c)) (schema c)) as Hinj.
  cbv zeta in Hinj.
  destruct (qrh_length_inject _ _ _ _) as [state' schema'].
  cbn [state schema fst snd] in *.
  destruct Hinj as (H1 & H2 & H3);
    [rewrite mix_block_length; exact Hlen
    | apply mix_block_word32; assumption | exact Hs |].
  rewrite qrh_run_state_length.
  split; [exact H1|]. split; [apply qrh_run_state_word32; exact H2 | exact H3].
Qed.

Lemma absorb_loop_ok fuel input input_len c c' :
  cfg_ok c → absorb_loop fuel input input_len c = Some c' → cfg_ok c'.
Proof.
  revert c. induction fuel as [|fuel IH]; intros c Hc; cbn [absorb_loop];
    destruct (offset c <? input_len)%nat; intros Heq; try discriminate Heq.
  - injection Heq as <-. exact Hc.
  - apply (IH (absorb_iter input input_len c)); [|exact Heq].
    apply absorb_iter_ok. exact Hc.
  - injection Heq as <-. exact Hc.
Qed.

Lemma whiten_word32 input_len state :
  Forall word32 state → Forall word32 (whiten input_len state).
Proof.
  intros H. unfold whiten. cbn [fold_left].
  repeat (apply Forall_insert; [|apply u32_word32]). exact H.
Qed.

(** X12: all through the absorption of any input the state has 16 words, each
    a 32-bit value, and the schema is a 32-bit value; every pass through the
    loop body keeps this, and so does the finishing pass. *)
Theorem absorption_keeps_uint32 (input : list Z) :
  cfg_ok (absorb_init (length input)) ∧
  (∀ c, cfg_ok c → cfg_ok (absorb_iter input (length input) c)) ∧
  ∃ c, absorb_loop (length input) input (length input)
         (absorb_init (length input)) = Some c ∧
       cfg_ok c ∧
       Forall word32 (whiten (Z.of_nat (length input)) (state c)).
Proof.
  split; [apply absorb_init_ok|].
  split; [intros c; apply absorb_iter_ok|].
  destruct (qrh_256_returns input []) as (c & Hc & _ & _).
  assert (Hok : cfg_ok c)
    by (eapply absorb_loop_ok; [apply absorb_init_ok | exact Hc]).
  exists c. split; [exact Hc|]. split; [exact Hok|].
  apply whiten_word32. apply Hok.
Qed.

Lemma absorption_keeps_uint32_witness :
  cfg_ok (absorb_init (length fox_dog)) ∧
  cfg_ok (absorb_iter fox_dog (length fox_dog) (absorb_init (length fox_dog))).
Proof.
  destruct (absorption_keeps_uint32 fox_dog) as (Hinit & Hstep & _).
  split; [exact Hinit | exact (Hstep _ Hinit)].
Defined.

(** ** The digest as a byte string *)

Lemma le_bytes_are_bytes val : Forall is_byte (le_bytes val).
Proof.
  unfold le_bytes. change (Z.land val 0xFF) with (u8 val).
  repeat constructor; rewrite u8_mod; apply Z.mod_pos_bound; lia.
Qed.

Lemma serialized_words_are_bytes ws : Forall is_byte (flat_map le_bytes ws).
Proof.
  induction ws as [|w ws IH]; [constructor|].
  cbn [flat_map]. apply Forall_app. split; [apply le_bytes_are_bytes | exact IH].
Qed.

(** X17: every byte of a digest and of an HMAC tag is a value from 0 to 255,
    whatever the input, the key and the previous contents of the 32-byte
    output buffer are. *)
Theorem digest_bytes_in_range (input out key bytes : list Z) :
  length out = 32%nat →
  (∃ digest, qrh_256 input out = Some digest ∧ Forall is_byte digest) ∧
  (∃ tag, qrh_256_hmac key bytes = Some tag ∧ Forall is_byte tag).
Proof.
  intros Hout.
  assert (Hd : ∀ inp o, length o = 32%nat →
                 ∃ d, qrh_256 inp o = Some d ∧ Forall is_byte d).
  { intros inp o Ho.
    destruct (qrh_256_digest inp o Ho) as (c & d & _ & Hq & -> & _).
    eexists. split; [exact Hq | apply serialized_words_are_bytes]. }
  split; [apply Hd; exact Hout|].
  destruct (qrh_256_hmac_steps key bytes)
    as (kb & inner & tag & _ & _ & _ & _ & Htag & _ & Hmac).
  exists tag. split; [exact Hmac|].
  destruct (Hd (((λ b, Z.lxor b 0x5c) <$> kb) ++ inner) (calloc QRH_HASH_SIZE))
    as (d & Hq & Hbytes); [apply length_replicate|].
  unfold qrh_alloc_256 in Htag. cbv zeta in Htag. congruence.
Qed.

Lemma digest_bytes_in_range_witness :
  length (replicate 32 0xFFF) = 32%nat ∧
  ∃ digest, qrh_256 fox_dog (replicate 32 0xFFF) = Some digest ∧
            Forall is_byte digest.
Proof.
  split; [reflexivity|].
  exact (proj1 (digest_bytes_in_range fox_dog (replicate 32 0xFFF) [] []
                  eq_refl)).
Defined.

Lemma flat_map_le_bytes_app ws1 ws2 :
  flat_map le_bytes (ws1 ++ ws2) = flat_map le_bytes ws1 ++ flat_map le_bytes ws2.
Proof. apply flat_map_app. Qed.

Lemma read_serialized_word ws i :
  (i < length ws)%nat →
  read_u32_le (flat_map le_bytes ws) (4 * i)
  = (u32 (ws !!! i), (4 * i + 4)%nat).
Proof.
  intros Hi.
  destruct (lookup_lt_is_Some_2 ws i Hi) as [w Hw].
  rewrite (list_lookup_total_correct _ _ _ Hw).
  rewrite <- (take_drop_middle ws i w Hw).
  rewrite flat_map_le_bytes_app. cbn [flat_map].
  assert (Hpre : (4 * i)%nat = length (flat_map le_bytes (take i ws))).
  { rewrite flat_map_le_bytes_length, length_take. lia. }
  rewrite Hpre. apply read_u32_le_layout.
Qed.

(** X18: the digest keeps words 0 to 7 of the final state in full: reading
    the digest at byte [4 * i] with [read_u32_le] gives back word [i] of the
    whitened state the absorption loop ended in. *)
Theorem digest_words_read_back (input out : list Z) (i : nat) :
  length out = 32%nat → (i < 8)%nat →
  ∃ c digest,
    absorb_loop (length input) input (length input)
      (absorb_init (length input)) = Some c ∧
    qrh_256 input out = Some digest ∧
    read_u32_le digest (4 * i)
    = (whiten (Z.of_nat (length input)) (state c) !!! i, (4 * i + 4)%nat).
Proof.
  intros Hout Hi.
  destruct (qrh_256_digest input out Hout) as (c & d & Hc & Hq & -> & _).
  exists c, (flat_map le_bytes
               (take 8 (whiten (Z.of_nat (length input)) (state c)))).
  split; [exact Hc|]. split; [exact Hq|].
  assert (Hok : cfg_ok c)
    by (eapply absorb_loop_ok; [apply absorb_init_ok | exact Hc]).
  destruct Hok as (Hlen & Hw & _).
  set (W := whiten (Z.of_nat (length input)) (state c)).
  assert (HlenW : length W = 16%nat)
    by (unfold W; rewrite whiten_length; exact Hlen).
  rewrite read_serialized_word by (rewrite length_take; lia).
  rewrite lookup_total_take_lt by lia.
  f_equal. apply word32_u32.
  apply Forall_lookup_total_1; [apply whiten_word32; exact Hw | lia].
Qed.

Lemma digest_words_read_back_witness :
  length (replicate 32 0) = 32%nat ∧ (1 < 8)%nat ∧
  ∃ digest, qrh_256 [] (replicate 32 0) = Some digest ∧
            read_u32_le digest (4 * 1) = (0xBB67AE85, 8%nat).
Proof.
  split; [reflexivity|]. split; [lia|].
  destruct (digest_words_read_back [] (replicate 32 0) 1 eq_refl ltac:(lia))
    as (c & d & Hc & Hq & Hr).
  exists d. split; [exact Hq|].
  rewrite Hr. cbn [length] in Hc. rewrite empty_loop_not_entered in Hc.
  injection Hc as <-. vm_compute. reflexivity.
Defined.

(** ** The output buffer *)

Lemma qrh_finalize_frame words out :
  length words = 16%nat → (32 ≤ length out)%nat →
  qrh_finalize words out = flat_map le_bytes (take 8 words) ++ drop 32 out.
Proof.
  intros Hw Ho.
  rewrite <- (take_drop 32 out) at 1.
  assert (Hhead : length (take 32 out) = 32%nat) by (rewrite length_take; lia).
  remember (take 32 out) as head. remember (drop 32 out) as rest.
  unpack_list words Hw 16. unpack_list head Hhead 32.
  cbv -[Z.land Z.shiftr u8]. reflexivity.
Qed.

(** X16: given an output buffer of at least 32 bytes, [qrh_256] overwrites
    its first 32 bytes with the digest, the same bytes [qrh_alloc_256] returns
    in a fresh buffer, and leaves every byte after them as it was. *)
Theorem qrh_256_writes_32_bytes (input out : list Z) :
  (32 ≤ length out)%nat →
  ∃ digest,
    qrh_alloc_256 input = Some digest ∧ length digest = 32%nat ∧
    qrh_256 input out = Some (digest ++ drop 32 out).
Proof.
  intros Hout.
  destruct (qrh_256_returns input out) as (c & Hc & Hlen & Hq).
  destruct (qrh_256_digest input (calloc QRH_HASH_SIZE))
    as (c' & d & Hc' & Hq' & Hd & Hdlen); [apply length_replicate|].
  exists d. split; [exact Hq'|]. split; [exact Hdlen|].
  rewrite Hq. f_equal.
  rewrite qrh_finalize_frame by (rewrite ?whiten_length; assumption).
  f_equal. rewrite Hd. congruence.
Qed.

Lemma qrh_256_writes_32_bytes_witness :
  (32 ≤ length (replicate 32 1 ++ [7; 8; 9]))%nat ∧
  ∃ digest, qrh_alloc_256 fox_dog = Some digest ∧ length digest = 32%nat ∧
            qrh_256 fox_dog (replicate 32 1 ++ [7; 8; 9])
            = Some (digest ++ [7; 8; 9]).
Proof.
  split; [cbn [length replicate app]; lia|].
  exact (qrh_256_writes_32_bytes fox_dog (replicate 32 1 ++ [7; 8; 9])
           ltac:(cbn [length replicate app]; lia)).
Defined.

(** ** Decoding a chunk *)

(** Two loop bodies that agree on every configuration an invariant allows
    give the same loop. *)
Lemma for_loop_ext {S : Type} (P : nat → S → Prop) n (f g : nat → S → S) s :
  P 0%nat s →
  (∀ i s, (i < n)%nat → P i s → f i s = g i s ∧ P (Datatypes.S i) (f i s)) →
  for_loop n f s = for_loop n g s ∧ P n (for_loop n f s).
Proof.
  intros H0 Hstep. induction n as [|n IH]; [split; [reflexivity | exact H0]|].
  destruct IH as [Heq Hp]; [intros i s' Hi; apply Hstep; lia|].
  rewrite !for_loop_S. rewrite <- Heq.
  destruct (Hstep n (for_loop n f s) ltac:(lia) Hp) as [Hfg Hp'].
  split; [exact Hfg | exact Hp'].
Qed.

Lemma populated_words_bound block_size :
  (block_size ≤ 64)%nat → (populated_words block_size ≤ 16)%nat.
Proof.
  unfold populated_words. intros H.
  assert ((block_size + 3) / 4 < 17)%nat; [|lia].
  apply Nat.Div0.div_lt_upper_bound. lia.
Qed.

Lemma decode_chunk_words input offset block_size blocks :
  let r := (decode_chunk input offset block_size blocks).1 in
  length r = length blocks ∧
  (∀ j, (j < block_size / 4)%nat → (j < length blocks)%nat →
        r !!! j = (read_u32_le input (offset + 4 * j)).1) ∧
  (∀ j, (populated_words block_size ≤ j)%nat → r !!! j = blocks !!! j).
Proof.
  cbv zeta. unfold decode_chunk, populated_words. cbv zeta.
  match goal with
  | |- context [for_loop ?n ?f ?s] =>
      pose proof (for_loop_invariant
        (λ i st, st.2 = (offset + 4 * i)%nat ∧
                 length st.1 = length blocks ∧
                 (∀ j, (j < i)%nat → (j < length blocks)%nat →
                       st.1 !!! j = (read_u32_le input (offset + 4 * j)).1) ∧
                 (∀ j, (i ≤ j)%nat → st.1 !!! j = blocks !!! j)) n f s) as Hinv
  end.
  destruct (for_loop _ _ _) as [blocks' buffer_offset]. cbv beta in Hinv.
  cbn [fst snd] in Hinv.
  destruct Hinv as (Hoff & Hlen & Hwords & Hrest).
  { split; [lia|]. split; [reflexivity|]. split; [intros; lia | reflexivity]. }
  { intros i [b o] Hi (Ho & Hl & Hw & Hr).
    unfold read_u32_le in *. cbn [fst snd] in *.
    split; [lia|]. split; [rewrite length_insert; exact Hl|]. split.
    - intros j Hj Hjl. destruct (decide (j = i)) as [->|Hne].
      + rewrite list_lookup_total_insert_eq by lia. subst o. reflexivity.
      + rewrite list_lookup_total_insert_ne by lia. apply Hw; lia.
    - intros j Hj. rewrite list_lookup_total_insert_ne by lia. apply Hr. lia. }
  pose proof (Nat.div_mod_eq block_size 4) as Hdm.
  pose proof (Nat.mod_upper_bound block_size 4 ltac:(lia)) as Hmod.
  destruct (block_size mod 4 =? 0)%nat eqn:Hpartial; cbn [fst].
  - apply Nat.eqb_eq in Hpartial.
    assert ((block_size + 3) / 4 = block_size / 4)%nat as Hpop
      by (symmetry; apply (Nat.div_unique _ 4 _ 3); lia).
    split; [exact Hlen|]. split; [exact Hwords|].
    intros j Hj. apply Hrest. lia.
  - apply Nat.eqb_neq in Hpartial.
    assert ((block_size + 3) / 4 = S (block_size / 4))%nat as Hpop
      by (symmetry; apply (Nat.div_unique _ 4 _ (block_size mod 4 - 1)); lia).
    unfold read_u32_le_dynamic. cbn [fst].
    split; [rewrite length_insert; exact Hlen|]. split.
    + intros j Hj Hjl. rewrite list_lookup_total_insert_ne by lia.
      apply Hwords; assumption.
    + intros j Hj. rewrite list_lookup_total_insert_ne by lia.
      apply Hrest. lia.
Qed.

(** X9: decoding a chunk of at most 64 bytes into the 16-word block buffer
    writes words [0 .. populated_words - 1] only, all inside the buffer; every
    complete 4-byte group becomes the little-endian word read at its offset,
    and every word from [populated_words] on keeps the value the buffer held
    before, which after a first chunk is that chunk's data. *)
Theorem decode_chunk_frame (input : list Z) (offset block_size : nat)
    (blocks : list Z) :
  length blocks = 16%nat → (block_size ≤ 64)%nat →
  let r := (decode_chunk input offset block_size blocks).1 in
  (populated_words block_size ≤ 16)%nat ∧
  length r = 16%nat ∧
  (∀ j, (j < block_size / 4)%nat →
        r !!! j = (read_u32_le input (offset + 4 * j)).1) ∧
  (∀ j, (populated_words block_size ≤ j)%nat → r !!! j = blocks !!! j).
Proof.
  intros Hlen Hbs. cbv zeta.
  destruct (decode_chunk_words input offset block_size blocks)
    as (Hl & Hw & Hr).
  split; [apply populated_words_bound; exact Hbs|].
  split; [rewrite Hl; exact Hlen|]. split; [|exact Hr].
  intros j Hj. apply Hw; [exact Hj|].
  rewrite Hlen.
  pose proof (Nat.Div0.div_le_upper_bound block_size 4 16 ltac:(lia)). lia.
Qed.

Lemma decode_chunk_frame_witness :
  length (replicate 16 0xAAAAAAAA) = 16%nat ∧ (5 ≤ 64)%nat ∧
  (decode_chunk [1; 2; 3; 4; 5] 0 5 (replicate 16 0xAAAAAAAA)).1 !!! 2%nat
  = 0xAAAAAAAA.
Proof.
  split; [reflexivity|]. split; [lia|].
  destruct (decode_chunk_frame [1; 2; 3; 4; 5] 0 5 (replicate 16 0xAAAAAAAA)
              eq_refl ltac:(lia)) as (_ & _ & _ & Hrest).
  rewrite (Hrest 2%nat) by (vm_compute; lia). reflexivity.
Defined.

(** ** The loop reads the input and nothing else *)

Lemma read_u32_le_app input junk o :
  (o + 4 ≤ length input)%nat →
  read_u32_le (input ++ junk) o = read_u32_le input o.
Proof.
  intros H. unfold read_u32_le. cbv zeta.
  rewrite !lookup_total_app_l by lia. reflexivity.
Qed.

Lemma read_u32_le_dynamic_app input junk o n :
  (o + n ≤ length input)%nat →
  read_u32_le_dynamic (input ++ junk) o n = read_u32_le_dynamic input o n.
Proof.
  intros H. unfold read_u32_le_dynamic. f_equal.
  apply (for_loop_ext (λ _ _, True)); [exact I|].
  intros k val Hk _. split; [|exact I].
  rewrite lookup_total_app_l by lia. reflexivity.
Qed.

Lemma decode_chunk_app input junk offset block_size blocks :
  (offset + block_size ≤ length input)%nat →
  decode_chunk (input ++ junk) offset block_size blocks
  = decode_chunk input offset block_size blocks.
Proof.
  intros H. unfold decode_chunk. cbv zeta.
  pose proof (Nat.div_mod_eq block_size 4) as Hdm.
  match goal with
  | |- context [for_loop ?n ?f (blocks, offset)] =>
      match goal with
      | |- context [for_loop n ?g (blocks, offset)] =>
          lazymatch f with
          | g => fail
          | _ => destruct (for_loop_ext
                   (λ i (st : list Z * nat), st.2 = (offset + 4 * i)%nat)
                   n f g (blocks, offset)) as [Heq Hoff]
          end
      end
  end.
  { cbn [snd]. lia. }
  { intros i [b o] Hi Ho. cbn [snd] in *.
    rewrite read_u32_le_app by lia. unfold read_u32_le. cbn [snd].
    split; [reflexivity | lia]. }
  rewrite Heq in Hoff |- *. clear Heq.
  destruct (for_loop _ _ _) as [blocks' buffer_offset]. cbn [snd] in Hoff.
  destruct (block_size mod 4 =? 0)%nat; [reflexivity|].
  rewrite read_u32_le_dynamic_app by lia. reflexivity.
Qed.

Lemma absorb_iter_app input junk c :
  (offset c ≤ length input)%nat →
  absorb_iter (input ++ junk) (length input) c
  = absorb_iter input (length input) c.
Proof.
  intros H. unfold absorb_iter. cbv zeta.
  rewrite decode_chunk_app; [reflexivity|].
  unfold QRH_BLOCK_SIZE.
  destruct (length input - offset c <? 64)%nat eqn:Hb;
    [apply Nat.ltb_lt in Hb | apply Nat.ltb_ge in Hb]; lia.
Qed.

Lemma absorb_iter_offset_le input input_len c :
  (offset c ≤ input_len)%nat →
  (offset (absorb_iter input input_len c) ≤ input_len)%nat.
Proof.
  intros H. rewrite absorb_iter_offset. unfold QRH_BLOCK_SIZE.
  destruct (input_len - offset c <? 64)%nat eqn:Hb;
    [apply Nat.ltb_lt in Hb | apply Nat.ltb_ge in Hb]; lia.
Qed.

Lemma absorb_loop_app fuel input junk c :
  (offset c ≤ length input)%nat →
  absorb_loop fuel (input ++ junk) (length input) c
  = absorb_loop fuel input (length input) c.
Proof.
  revert c. induction fuel as [|fuel IH]; intros c H; cbn [absorb_loop];
    [reflexivity|].
  destruct (offset c <? length input)%nat; [|reflexivity].
  rewrite absorb_iter_app by exact H.
  apply IH. apply absorb_iter_offset_le. exact H.
Qed.

(** X11: [qrh_256] reads the first [input_len] bytes of its input buffer and
    nothing after them: whatever follows the input in memory, the digest is
    the same. *)
Theorem qrh_256_reads_input_only (input junk out : list Z) :
  qrh_256_buf (input ++ junk) (length input) out = qrh_256 input out ∧
  qrh_256_buf input (length input) out = qrh_256 input out.
Proof.
  split; [|reflexivity].
  unfold qrh_256_buf, qrh_256. cbv zeta.
  rewrite absorb_loop_app by (cbn [absorb_init offset]; lia).
  reflexivity.
Qed.

(** ** How often the loop body runs *)

Lemma chunk_count_0 : chunk_count 0 = 0%nat.
Proof. reflexivity. Qed.

Lemma chunk_count_step r :
  (0 < r)%nat →
  chunk_count r = S (chunk_count (r - (if (r <? 64)%nat then r else 64%nat))).
Proof.
  intros Hr. unfold chunk_count.
  destruct (r <? 64)%nat eqn:Hb;
    [apply Nat.ltb_lt in Hb | apply Nat.ltb_ge in Hb].
  - replace (r - r + 63)%nat with 63%nat by lia.
    change (63 / 64)%nat with 0%nat.
    symmetry. apply (Nat.div_unique _ 64 _ (r - 1)); lia.
  - pose proof (Nat.div_mod_eq (r - 64 + 63) 64) as Hdm.
    pose proof (Nat.mod_upper_bound (r - 64 + 63) 64 ltac:(lia)) as Hm.
    symmetry. apply (Nat.div_unique _ 64 _ ((r - 64 + 63) mod 64)); lia.
Qed.

Lemma absorb_loop_iterates fuel input input_len c :
  (offset c ≤ input_len)%nat → (input_len - offset c ≤ fuel)%nat →
  let c' := Nat.iter (chunk_count (input_len - offset c))
              (absorb_iter input input_len) c in
  absorb_loop fuel input input_len c = Some c' ∧ offset c' = input_len.
Proof.
  cbv zeta. revert c.
  induction fuel as [|fuel IH]; intros c Hoff Hfuel; cbn [absorb_loop].
  - replace (offset c <? input_len)%nat with false
      by (symmetry; apply Nat.ltb_ge; lia).
    replace (input_len - offset c)%nat with 0%nat by lia.
    rewrite chunk_count_0. cbn [Nat.iter nat_rect]. split; [reflexivity | lia].
  - destruct (offset c <? input_len)%nat eqn:Hlt.
    + apply Nat.ltb_lt in Hlt.
      pose proof (absorb_iter_offset input input_len c) as Hnext.
      pose proof (absorb_iter_offset_le input input_len c Hoff) as Hle.
      unfold QRH_BLOCK_SIZE in Hnext.
      rewrite (chunk_count_step (input_len - offset c)) by lia.
      rewrite Nat.iter_succ_r.
      replace (input_len - offset c -
               (if (input_len - offset c <? 64)%nat
                then input_len - offset c else 64))%nat
        with (input_len - offset (absorb_iter input input_len c))%nat by lia.
      apply IH; [exact Hle|].
      destruct (input_len - offset c <? 64)%nat; lia.
    + apply Nat.ltb_ge in Hlt.
      replace (input_len - offset c)%nat with 0%nat by lia.
      rewrite chunk_count_0. cbn [Nat.iter nat_rect]. split; [reflexivity | lia].
Qed.

(** X10: hashing an input of [n] bytes runs the loop body exactly
    [ceil(n / 64)] times, starting from the initial configuration, and the
    loop ends with the offset equal to [n]; after [k] passes the offset, which
    is the block index handed to length injection, is [64 * k], capped at
    [n]: no chunk is skipped and the offset never passes the end of the
    input. *)
Theorem absorb_loop_runs_once_per_chunk (input : list Z) :
  ∃ c,
    absorb_loop (length input) input (length input)
      (absorb_init (length input)) = Some c ∧
    c = Nat.iter (chunk_count (length input))
          (absorb_iter input (length input)) (absorb_init (length input)) ∧
    offset c = length input ∧
    (∀ k, offset (Nat.iter k (absorb_iter input (length input))
                    (absorb_init (length input)))
          = Nat.min (64 * k) (length input)).
Proof.
  destruct (absorb_loop_iterates (length input) input (length input)
              (absorb_init (length input))) as [Hloop Hoff];
    [cbn [absorb_init offset]; lia..|].
  cbn [absorb_init offset] in Hloop, Hoff. rewrite Nat.sub_0_r in Hloop, Hoff.
  eexists. split; [exact Hloop|]. split; [reflexivity|]. split; [exact Hoff|].
  intros k. induction k as [|k IH]; [reflexivity|].
  rewrite Nat.iter_succ, absorb_iter_offset, IH.
  unfold QRH_BLOCK_SIZE.
  destruct (length input - Nat.min (64 * k) (length input) <? 64)%nat eqn:Hb;
    [apply Nat.ltb_lt in Hb | apply Nat.ltb_ge in Hb]; lia.
Qed.

(** ** Length injection *)

Lemma u32_add_multiple x k : u32 (x + 2 ^ 32 * k) = u32 x.
Proof.
  rewrite !u32_mod. rewrite (Z.mul_comm (2 ^ 32) k). apply Z.mod_add. lia.
Qed.

Lemma inject_index_block_wrap combined schema block_index input_len i k :
  inject_index combined schema (block_index + 2 ^ 32 * k) input_len i
  = inject_index combined schema block_index input_len i.
Proof. unfold inject_index. rewrite u32_add_multiple. reflexivity. Qed.

Lemma inject_iter_block_wrap input_len block_index i k st :
  inject_iter input_len (block_index + 2 ^ 32 * k) i st
  = inject_iter input_len block_index i st.
Proof.
  destruct st as [[words schema] combined]. unfold inject_iter.
  rewrite inject_index_block_wrap. reflexivity.
Qed.

(** X13: length injection uses the block index through its low 32 bits
    only: two block offsets that differ by a multiple of 2^32 inject the same
    words and leave the same schema. *)
Theorem length_inject_block_index_mod_2_32
    (words : list Z) (input_len block_index schema k : Z) :
  qrh_length_inject words input_len (block_index + 2 ^ 32 * k) schema
  = qrh_length_inject words input_len block_index schema.
Proof.
  unfold qrh_length_inject. cbv zeta. rewrite u32_add_multiple.
  match goal with
  | |- context [for_loop 4 (inject_iter _ (block_index + _)) ?s] =>
      destruct (for_loop_ext (λ _ _, True) 4
                  (inject_iter input_len (block_index + 2 ^ 32 * k))
                  (inject_iter input_len block_index) s) as [-> _]
  end; [exact I | | reflexivity].
  intros i st _ _. split; [apply inject_iter_block_wrap | exact I].
Qed.

(** X14: one call of length injection changes at most four words of the
    state, each at an index below 16; every other word comes out as it went
    in. *)
Theorem length_inject_changes_four_words
    (words : list Z) (input_len block_index schema : Z) :
  ∃ xs : list nat,
    length xs = 4%nat ∧ Forall (λ x, x < 16)%nat xs ∧
    ∀ j, j ∉ xs →
         (qrh_length_inject words input_len block_index schema).1 !!! j
         = words !!! j.
Proof.
  unfold qrh_length_inject. cbv zeta.
  match goal with
  | |- context [for_loop 4 ?f ?s] =>
      pose proof (for_loop_invariant
        (λ i st, ∃ xs : list nat,
                   length xs = i ∧ Forall (λ x, x < 16)%nat xs ∧
                   ∀ j, j ∉ xs → st.1.1 !!! j = words !!! j) 4 f s) as Hinv
  end.
  destruct (for_loop _ _ _) as [[w s] c]. cbn [fst snd] in *.
  apply Hinv.
  - exists []. split; [reflexivity|]. split; [constructor | reflexivity].
  - intros i [[w' s'] c'] _ (xs & Hlen & Hlt & Hframe). cbn [fst snd] in *.
    pose proof (inject_index_bounds c' s' block_index input_len i) as Hx.
    exists (Z.to_nat (inject_index c' s' block_index input_len i) :: xs).
    split; [cbn [length]; lia|]. split; [constructor; [lia | exact Hlt]|].
    intros j Hj. apply not_elem_of_cons in Hj as [Hne Hj].
    unfold inject_iter. cbn [fst snd].
    rewrite list_lookup_total_insert_ne by congruence. apply Hframe. exact Hj.
Qed.

(** ** What the mixing steps keep and what they lose *)

Lemma u32_add_cancel x y k :
  word32 x → word32 y → u32 (x + k) = u32 (y + k) → x = y.
Proof.
  unfold word32. rewrite !u32_mod. change (2 ^ 32) with 4294967296.
  intros Hx Hy H. Z.div_mod_to_equations. lia.
Qed.

Lemma u32_add_u32_l x y : u32 (u32 x + y) = u32 (x + y).
Proof. rewrite !u32_mod. apply Zplus_mod_idemp_l. Qed.

Lemma lxor_cancel_r x y k : Z.lxor x k = Z.lxor y k → x = y.
Proof.
  intros H.
  rewrite <- (Z.lxor_0_r x), <- (Z.lxor_0_r y), <- (Z.lxor_nilpotent k).
  rewrite <- !Z.lxor_assoc, H. reflexivity.
Qed.

(** X5: the triple-mix [add3] loses nothing: on 32-bit words, two triples
    with the same result are the same triple. *)
Theorem add3_injective (a b c a' b' c' : Z) :
  word32 a → word32 b → word32 c → word32 a' → word32 b' → word32 c' →
  add3 a b c = add3 a' b' c' → a = a' ∧ b = b' ∧ c = c'.
Proof.
  intros Ha Hb Hc Ha' Hb' Hc' Heq. unfold add3 in Heq. cbv zeta in Heq.
  remember (u32 (a + u32 (c + b))) as a3 eqn:Ea3.
  remember (u32 (b + u32 (a3 + c))) as b3 eqn:Eb3.
  remember (u32 (c + u32 (a3 + b3))) as c3 eqn:Ec3.
  remember (u32 (a' + u32 (c' + b'))) as a3' eqn:Ea3'.
  remember (u32 (b' + u32 (a3' + c'))) as b3' eqn:Eb3'.
  remember (u32 (c' + u32 (a3' + b3'))) as c3' eqn:Ec3'.
  assert (Hw : word32 a3 ∧ word32 b3 ∧ word32 c3 ∧
               word32 a3' ∧ word32 b3' ∧ word32 c3')
    by (subst; repeat split; apply u32_word32).
  destruct Hw as (Wa & Wb & Wc & Wa' & Wb' & Wc').
  injection Heq as H1 H2 H3.
  rewrite H1 in H2, H3.
  assert (Hb3 : b3 = b3') by (apply (u32_add_cancel _ _ _ Wb Wb' H2)).
  rewrite Hb3 in H3.
  assert (Hc3 : c3 = c3') by (apply (u32_add_cancel _ _ _ Wc Wc' H3)).
  rewrite Hc3 in H1.
  assert (Ha3 : a3 = a3') by (apply (u32_add_cancel _ _ _ Wa Wa' H1)).
  assert (Hcc : u32 (c + u32 (a3 + b3)) = u32 (c' + u32 (a3 + b3)))
    by congruence.
  apply u32_add_cancel in Hcc; [|assumption..].
  assert (Hbb : u32 (b + u32 (a3 + c)) = u32 (b' + u32 (a3 + c)))
    by congruence.
  apply u32_add_cancel in Hbb; [|assumption..].
  assert (Haa : u32 (a + u32 (c + b)) = u32 (a' + u32 (c + b)))
    by congruence.
  apply u32_add_cancel in Haa; [|assumption..].
  auto.
Qed.

Lemma add3_injective_witness :
  word32 1 ∧ word32 2 ∧ word32 3 ∧ add3 1 2 3 = add3 1 2 3 ∧
  (1 = 1 ∧ 2 = 2 ∧ 3 = 3).
Proof.
  assert (H1 : word32 1) by (unfold word32; lia).
  assert (H2 : word32 2) by (unfold word32; lia).
  assert (H3 : word32 3) by (unfold word32; lia).
  split; [exact H1|]. split; [exact H2|]. split; [exact H3|].
  split; [reflexivity|].
  exact (add3_injective 1 2 3 1 2 3 H1 H2 H3 H1 H2 H3 eq_refl).
Defined.

Lemma ROTL32_unrotate v n :
  word32 v → 0 < n < 32 → ROTL32 (ROTL32 v (32 - n)) n = v.
Proof.
  intros Hv Hn.
  destruct (ROTL32_is_rotation_aux v (32 - n)) as [_ H]; [assumption | lia|].
  replace (32 - (32 - n)) with n in H by lia. exact H.
Qed.

(** X6: the quarter-round [round4] overwrites its [b] and [d] words with
    rotations of the incoming [d] alone, so it forgets part of its input: for
    any 32-bit input and any other value of [b] there is a value of [a] that
    gives the very same four output words. *)
Theorem round4_forgets_b (a b c d b2 : Z) :
  word32 a → word32 b → word32 c → word32 d → word32 b2 → b2 ≠ b →
  (round4 a b c d).1.1.2 = ROTL32 (ROTL32 d 12) 14 ∧
  (round4 a b c d).2 = ROTL32 (ROTL32 (ROTL32 d 12) 14) 23 ∧
  ∃ a2, word32 a2 ∧ (a2, b2, c, d) ≠ (a, b, c, d) ∧
        round4 a2 b2 c d = round4 a b c d.
Proof.
  intros Ha Hb Hc Hd Hb2 Hne.
  split; [reflexivity|]. split; [reflexivity|].
  set (c1 := u32 (c + d)).
  set (X := Z.lxor (ROTL32 (u32 (a + b)) 6) c1).
  set (R := ROTL32 (Z.lxor b d) 9).
  set (R2 := ROTL32 (Z.lxor b2 d) 9).
  set (T := u32 (X + R - R2)).
  set (a2 := u32 (ROTL32 (Z.lxor T c1) 26 - b2)).
  assert (Hw : word32 (Z.lxor T c1))
    by (apply lxor_word32; apply u32_word32).
  assert (Hsum : u32 (a2 + b2) = ROTL32 (Z.lxor T c1) 26).
  { unfold a2. rewrite u32_add_u32_l.
    replace (ROTL32 (Z.lxor T c1) 26 - b2 + b2)
      with (ROTL32 (Z.lxor T c1) 26) by lia.
    apply word32_u32. apply ROTL32_word32; [exact Hw | lia]. }
  assert (Hrot : ROTL32 (u32 (a2 + b2)) 6 = Z.lxor T c1).
  { rewrite Hsum. apply (ROTL32_unrotate (Z.lxor T c1) 6 Hw). lia. }
  assert (Hx : Z.lxor (Z.lxor T c1) c1 = T).
  { rewrite Z.lxor_assoc, Z.lxor_nilpotent. apply Z.lxor_0_r. }
  assert (Hkey : u32 (T + R2) = u32 (X + R)).
  { unfold T. rewrite u32_add_u32_l. f_equal. lia. }
  exists a2. split; [apply u32_word32|].
  split; [intros Heq; injection Heq as _ Hbb; exact (Hne Hbb)|].
  unfold round4. cbv zeta.
  fold c1. rewrite Hrot, Hx. fold R2. rewrite Hkey. reflexivity.
Qed.

Lemma round4_forgets_b_witness :
  word32 0 ∧ word32 1 ∧ 1 ≠ 0 ∧
  ∃ a2, word32 a2 ∧ (a2, 1, 0, 0) ≠ (0, 0, 0, 0) ∧
        round4 a2 1 0 0 = round4 0 0 0 0.
Proof.
  assert (H0 : word32 0) by (unfold word32; lia).
  assert (H1 : word32 1) by (unfold word32; lia).
  split; [exact H0|]. split; [exact H1|]. split; [lia|].
  exact (proj2 (proj2 (round4_forgets_b 0 0 0 0 1 H0 H0 H0 H0 H1 ltac:(lia)))).
Defined.

Lemma mod_16_shifted i k :
  (0 < k < 16)%nat → ((i + k) mod 16 ≠ i)%nat.
Proof.
  intros Hk Heq.
  pose proof (Nat.div_mod_eq (i + k) 16) as Hdm.
  pose proof (Nat.mod_upper_bound (i + k) 16 ltac:(lia)) as Hm.
  rewrite Heq in Hdm. lia.
Qed.

Lemma diffuse_word_lookup_ne i j words :
  j ≠ i → diffuse_word i words !! j = words !! j.
Proof.
  intros Hne. unfold diffuse_word. cbv zeta.
  rewrite !list_lookup_insert_ne by congruence. reflexivity.
Qed.

Lemma diffuse_word_lookup_eq i words :
  (i < length words)%nat →
  diffuse_word i words !!! i
  = u32 (Z.lxor (words !!! i) (ROTL32 (words !!! ((i + 7) mod 16)%nat) 11)
         + ROTL32 (words !!! ((i + 3) mod 16)%nat) 17).
Proof.
  intros Hi.
  assert (H7 : ((i + 7) mod 16 ≠ i)%nat) by (apply mod_16_shifted; lia).
  assert (H3 : ((i + 3) mod 16 ≠ i)%nat) by (apply mod_16_shifted; lia).
  unfold diffuse_word. cbv zeta.
  rewrite list_lookup_total_insert_eq by (rewrite length_insert; exact Hi).
  rewrite list_lookup_total_insert_eq by exact Hi.
  rewrite list_lookup_total_insert_ne by congruence. reflexivity.
Qed.

Lemma diffuse_word_injective i w1 w2 :
  length w1 = 16%nat → length w2 = 16%nat → (i < 16)%nat →
  Forall word32 w1 → Forall word32 w2 →
  diffuse_word i w1 = diffuse_word i w2 → w1 = w2.
Proof.
  intros Hl1 Hl2 Hi Hw1 Hw2 Heq.
  assert (Hother : ∀ j, j ≠ i → w1 !! j = w2 !! j).
  { intros j Hj. rewrite <- (diffuse_word_lookup_ne i j w1 Hj), Heq.
    apply diffuse_word_lookup_ne. exact Hj. }
  assert (Htotal : ∀ j, j ≠ i → w1 !!! j = w2 !!! j).
  { intros j Hj. rewrite !list_lookup_total_alt, (Hother j Hj). reflexivity. }
  assert (H7 : ((i + 7) mod 16 ≠ i)%nat) by (apply mod_16_shifted; lia).
  assert (H3 : ((i + 3) mod 16 ≠ i)%nat) by (apply mod_16_shifted; lia).
  pose proof (diffuse_word_lookup_eq i w1 ltac:(lia)) as E1.
  pose proof (diffuse_word_lookup_eq i w2 ltac:(lia)) as E2.
  rewrite Heq, E2 in E1.
  rewrite (Htotal _ H7), (Htotal _ H3) in E1.
  assert (Hwi : ∀ w, Forall word32 w → length w = 16%nat →
                     word32 (Z.lxor (w !!! i)
                               (ROTL32 (w2 !!! ((i + 7) mod 16)%nat) 11))).
  { intros w Hw Hl. apply lxor_word32.
    - apply Forall_lookup_total_1; [exact Hw | lia].
    - apply ROTL32_word32; [|lia].
      apply Forall_lookup_total_1; [exact Hw2|].
      pose proof (Nat.mod_upper_bound (i + 7) 16). lia. }
  apply u32_add_cancel in E1; [|apply Hwi; assumption..].
  apply lxor_cancel_r in E1.
  apply list_eq. intros j. destruct (decide (j = i)) as [->|Hne].
  - rewrite !list_lookup_lookup_total
      by (apply lookup_lt_is_Some_2; lia).
    rewrite E1. reflexivity.
  - apply Hother. exact Hne.
Qed.

Lemma diffuse_prefix_ok n words :
  length words = 16%nat → Forall word32 words →
  length (for_loop n diffuse_word words) = 16%nat ∧
  Forall word32 (for_loop n diffuse_word words).
Proof.
  intros Hl Hw.
  apply (for_loop_invariant (λ _ w, length w = 16%nat ∧ Forall word32 w));
    [auto|].
  intros i w _ [Hlw Hww].
  rewrite diffuse_word_length. split; [exact Hlw|].
  apply diffuse_word_word32. exact Hww.
Qed.

Lemma diffuse_prefix_injective n w1 w2 :
  (n ≤ 16)%nat →
  length w1 = 16%nat → length w2 = 16%nat →
  Forall word32 w1 → Forall word32 w2 →
  for_loop n diffuse_word w1 = for_loop n diffuse_word w2 → w1 = w2.
Proof.
  intros Hn Hl1 Hl2 Hw1 Hw2.
  induction n as [|n IH]; [rewrite !for_loop_0; auto|].
  rewrite !for_loop_S. intros Heq. apply IH; [lia|].
  destruct (diffuse_prefix_ok n w1 Hl1 Hw1) as [Hp1 Hq1].
  destruct (diffuse_prefix_ok n w2 Hl2 Hw2) as [Hp2 Hq2].
  apply (diffuse_word_injective n); (assumption || lia).
Qed.

(** X7: the diffusion sweep loses nothing: two 16-word states of 32-bit
    words that a sweep maps to the same state are the same state. *)
Theorem diffuse_sweep_injective (w1 w2 : list Z) :
  length w1 = 16%nat → length w2 = 16%nat →
  Forall word32 w1 → Forall word32 w2 →
  qrh_diffuse_words w1 = qrh_diffuse_words w2 → w1 = w2.
Proof.
  unfold qrh_diffuse_words, QRH_WORDS_SIZE.
  intros Hl1 Hl2 Hw1 Hw2 Heq.
  apply (diffuse_prefix_injective 16); (assumption || lia).
Qed.

Lemma diffuse_sweep_injective_witness :
  length constants = 16%nat ∧ Forall word32 constants ∧
  qrh_diffuse_words constants = qrh_diffuse_words constants ∧
  constants = constants.
Proof.
  assert (Hw : Forall word32 constants)
    by (unfold word32; repeat constructor; lia).
  split; [reflexivity|]. split; [exact Hw|]. split; [reflexivity|].
  exact (diffuse_sweep_injective constants constants eq_refl eq_refl Hw Hw
           eq_refl).
Defined.

(** ** HMAC keys *)

(** The tag is fixed by the key block and the message. *)
Lemma hmac_same_key_block key1 key2 bytes kb :
  (∃ inner tag,
     qrh_alloc_256 (((λ b, Z.lxor b 0x36) <$> kb) ++ bytes) = Some inner ∧
     qrh_alloc_256 (((λ b, Z.lxor b 0x5c) <$> kb) ++ inner) = Some tag ∧
     qrh_256_hmac key1 bytes = Some tag) →
  (∃ inner tag,
     qrh_alloc_256 (((λ b, Z.lxor b 0x36) <$> kb) ++ bytes) = Some inner ∧
     qrh_alloc_256 (((λ b, Z.lxor b 0x5c) <$> kb) ++ inner) = Some tag ∧
     qrh_256_hmac key2 bytes = Some tag) →
  qrh_256_hmac key1 bytes = qrh_256_hmac key2 bytes.
Proof.
  intros (i1 & t1 & Hi1 & Ht1 & H1) (i2 & t2 & Hi2 & Ht2 & H2).
  rewrite H1, H2. rewrite Hi1 in Hi2. injection Hi2 as <-.
  rewrite Ht1 in Ht2. exact Ht2.
Qed.

Lemma hmac_key_block_short key bytes :
  (length key ≤ 64)%nat →
  ∃ inner tag,
    qrh_alloc_256 (((λ b, Z.lxor b 0x36)
                    <$> key ++ replicate (64 - length key) 0) ++ bytes)
    = Some inner ∧
    qrh_alloc_256 (((λ b, Z.lxor b 0x5c)
                    <$> key ++ replicate (64 - length key) 0) ++ inner)
    = Some tag ∧
    qrh_256_hmac key bytes = Some tag.
Proof.
  intros Hlen.
  destruct (qrh_256_hmac_steps key bytes)
    as (kb & inner & tag & _ & Hshape & Hinner & _ & Htag & _ & Hmac).
  replace (64 <? length key)%nat with false in Hshape
    by (symmetry; apply Nat.ltb_ge; lia).
  subst kb. eauto.
Qed.

(** X19: a key of at most 64 bytes is padded with zero bytes to the block
    size, so the key and the key followed by zero bytes (still within 64
    bytes) give the same tag for every message; in particular the empty key
    and any all-zero key of up to 64 bytes are the same key. *)
Theorem hmac_key_zero_padding (key bytes : list Z) (k : nat) :
  (length key + k ≤ 64)%nat →
  qrh_256_hmac (key ++ replicate k 0) bytes = qrh_256_hmac key bytes.
Proof.
  intros Hlen.
  apply (hmac_same_key_block _ _ _ (key ++ replicate (64 - length key) 0)).
  - destruct (hmac_key_block_short (key ++ replicate k 0) bytes)
      as (inner & tag & Hi & Ht & Hm);
      [rewrite length_app, length_replicate; lia|].
    replace ((key ++ replicate k 0)
             ++ replicate (64 - length (key ++ replicate k 0)) 0)
      with (key ++ replicate (64 - length key) 0) in Hi, Ht.
    + eauto.
    + rewrite length_app, length_replicate, <- app_assoc, <- replicate_add.
      do 2 f_equal. lia.
  - apply hmac_key_block_short. lia.
Qed.

Lemma hmac_key_zero_padding_witness :
  (length ([] : list Z) + 5 ≤ 64)%nat ∧
  qrh_256_hmac [0; 0; 0; 0; 0] fox_dog = qrh_256_hmac [] fox_dog.
Proof.
  split; [cbn [length]; lia|].
  exact (hmac_key_zero_padding [] fox_dog 5 ltac:(cbn [length]; lia)).
Defined.

(** X20: a key longer than 64 bytes acts as its own 32-byte digest: the tag
    under the long key equals the tag under the digest of the key, for every
    message. *)
Theorem hmac_long_key_is_its_digest (key bytes : list Z) :
  (64 < length key)%nat →
  ∃ key_hash,
    qrh_alloc_256 key = Some key_hash ∧ length key_hash = 32%nat ∧
    qrh_256_hmac key bytes = qrh_256_hmac key_hash bytes.
Proof.
  intros Hlen.
  destruct (qrh_256_hmac_steps key bytes)
    as (kb & inner & tag & _ & Hshape & Hinner & _ & Htag & _ & Hmac).
  replace (64 <? length key)%nat with true in Hshape
    by (symmetry; apply Nat.ltb_lt; lia).
  destruct Hshape as (kh & Hkh & Hkhlen & ->).
  exists kh. split; [exact Hkh|]. split; [exact Hkhlen|].
  apply (hmac_same_key_block _ _ _ (kh ++ replicate 32 0)); [eauto|].
  destruct (hmac_key_block_short kh bytes) as (i2 & t2 & Hi2 & Ht2 & Hm2);
    [lia|].
  rewrite Hkhlen in Hi2, Ht2. eauto.
Qed.

Lemma hmac_long_key_is_its_digest_witness :
  (64 < length two_chunk_input)%nat ∧
  ∃ key_hash,
    qrh_alloc_256 two_chunk_input = Some key_hash ∧
    qrh_256_hmac two_chunk_input fox_dog = qrh_256_hmac key_hash fox_dog.
Proof.
  split; [vm_compute; lia|].
  destruct (hmac_long_key_is_its_digest two_chunk_input fox_dog
              ltac:(vm_compute; lia)) as (kh & Hkh & _ & Hmac).
  exists kh. split; assumption.
Defined.

(** ** The finishing pass *)

(** X15: the finishing pass changes words 0, 4, 8 and 12 of the state and no
    other; as the digest is made of words 0 to 7, the digest is what it would
    be had only words 0 and 4 been whitened. *)
Theorem whiten_reaches_words_0_and_4 (input_len : Z) (state out : list Z) :
  length state = 16%nat → length out = 32%nat →
  (∀ j, j ∉ [0; 4; 8; 12]%nat → whiten input_len state !!! j = state !!! j) ∧
  whiten input_len state !!! 0%nat
  = u32 (Z.lxor (state !!! 0%nat) (ROTL32_size (u64 (input_len ≪ 17)) 6)) ∧
  whiten input_len state !!! 4%nat
  = u32 (Z.lxor (state !!! 4%nat) (ROTL32_size (u64 (input_len ≪ 21)) 6)) ∧
  qrh_finalize (whiten input_len state) out
  = qrh_finalize
      (<[4%nat := whiten input_len state !!! 4%nat]>
         (<[0%nat := whiten input_len state !!! 0%nat]> state)) out.
Proof.
  intros Hs Ho.
  split.
  { intros j Hj. unfold whiten. cbn [fold_left].
    rewrite !list_lookup_total_insert_ne; [reflexivity|..];
      intros <-; apply Hj; repeat constructor. }
  rewrite !qrh_finalize_serialize
    by (rewrite ?length_insert, ?whiten_length; assumption).
  unpack_list state Hs 16.
  split; [reflexivity|]. split; [reflexivity|]. reflexivity.
Qed.

Lemma whiten_reaches_words_0_and_4_witness :
  length constants = 16%nat ∧ length (replicate 32 0) = 32%nat ∧
  whiten 43 constants !!! 8%nat
  ≠ constants !!! 8%nat ∧
  qrh_finalize (whiten 43 constants) (replicate 32 0)
  = qrh_finalize
      (<[4%nat := whiten 43 constants !!! 4%nat]>
         (<[0%nat := whiten 43 constants !!! 0%nat]> constants))
      (replicate 32 0).
Proof.
  split; [reflexivity|]. split; [reflexivity|].
  split; [vm_compute; discriminate|].
  exact (proj2 (proj2 (proj2
           (whiten_reaches_words_0_and_4 43 constants (replicate 32 0)
              eq_refl eq_refl)))).
Defined.

(** ** Mixing a block into the state *)

Lemma lxor_twice x k : Z.lxor (Z.lxor x k) k = x.
Proof. rewrite Z.lxor_assoc, Z.lxor_nilpotent. apply Z.lxor_0_r. Qed.

Lemma xor_loop_unfold (g : nat → Z) state :
  length state = 16%nat →
  for_loop 16 (λ i s, <[i := Z.lxor (s !!! i) (g i)]> s) state
  = (λ i, Z.lxor (state !!! i) (g i)) <$> seq 0 16.
Proof.
  intros Hs. unpack_list state Hs 16.
  cbv -[Z.lxor]. reflexivity.
Qed.

Lemma lookup_total_fmap_seq (h : nat → Z) n i :
  (i < n)%nat → (h <$> seq 0 n) !!! i = h i.
Proof.
  intros Hi. apply list_lookup_total_correct.
  rewrite list_lookup_fmap, lookup_seq_lt by lia. reflexivity.
Qed.

Lemma mix_block_as_xor blocks state :
  length state = 16%nat →
  mix_block blocks state
  = (λ i, Z.lxor (state !!! i)
            (u32 (blocks !!! i
                  + ROTL32 (blocks !!! ((i + 1) mod 16)%nat) (Z.of_nat i))))
    <$> seq 0 16.
Proof.
  intros Hs. unfold mix_block, QRH_WORDS_SIZE.
  apply (xor_loop_unfold
           (λ i, u32 (blocks !!! i
                      + ROTL32 (blocks !!! ((i + 1) mod 16)%nat) (Z.of_nat i)))).
  exact Hs.
Qed.

(** X8: mixing a block XORs into each state word [i] a value computed from
    block words [i] and [(i + 1) mod 16] alone; so mixing the same block a
    second time restores the state, and mixing the all-zero block leaves the
    state as it is. *)
Theorem mix_block_is_xor (blocks state : list Z) :
  length state = 16%nat →
  (∀ i, (i < 16)%nat →
        mix_block blocks state !!! i
        = Z.lxor (state !!! i)
            (u32 (blocks !!! i
                  + ROTL32 (blocks !!! ((i + 1) mod 16)%nat) (Z.of_nat i)))) ∧
  mix_block blocks (mix_block blocks state) = state ∧
  mix_block (replicate 16 0) state = state.
Proof.
  intros Hs.
  assert (Hpoint : ∀ bl i, (i < 16)%nat →
            mix_block bl state !!! i
            = Z.lxor (state !!! i)
                (u32 (bl !!! i
                      + ROTL32 (bl !!! ((i + 1) mod 16)%nat) (Z.of_nat i)))).
  { intros bl i Hi. rewrite mix_block_as_xor by exact Hs.
    rewrite lookup_total_fmap_seq by exact Hi. reflexivity. }
  assert (Heq : ∀ l, length l = 16%nat →
                     (∀ i, (i < 16)%nat → l !!! i = state !!! i) → l = state).
  { intros l Hl Hi. apply list_eq_same_length with 16%nat; try assumption.
    intros i x y Hlt Hx Hy.
    apply list_lookup_total_correct in Hx, Hy. specialize (Hi i Hlt).
    congruence. }
  split; [apply Hpoint|]. split.
  - apply Heq; [rewrite !mix_block_length; exact Hs|].
    intros i Hi.
    rewrite mix_block_as_xor by (rewrite mix_block_length; exact Hs).
    rewrite lookup_total_fmap_seq by exact Hi.
    rewrite Hpoint by exact Hi. apply lxor_twice.
  - apply Heq; [rewrite mix_block_length; exact Hs|].
    intros i Hi. rewrite Hpoint by exact Hi.
    rewrite !lookup_total_replicate_2
      by (try exact Hi; apply Nat.mod_upper_bound; lia).
    assert (Hz : u32 (0 + ROTL32 0 (Z.of_nat i)) = 0).
    { unfold ROTL32. rewrite Z.shiftl_0_l, Z.shiftr_0_l. reflexivity. }
    rewrite Hz. apply Z.lxor_0_r.
Qed.

Lemma mix_block_is_xor_witness :
  length constants = 16%nat ∧
  mix_block fox_dog (mix_block fox_dog constants) = constants.
Proof.
  split; [reflexivity|].
  exact (proj1 (proj2 (mix_block_is_xor fox_dog constants eq_refl))).
Defined.

(** ** Bytes to word and back *)

Lemma byte_high_bits b i : is_byte b → 8 ≤ i → Z.testbit b i = false.
Proof.
  intros Hb Hi.
  assert (Hu : u8 b = b) by (rewrite u8_mod; apply Z.mod_small; exact Hb).
  rewrite <- Hu, testbit_u8 by lia.
  replace (i <? 8) with false by (symmetry; apply Z.ltb_ge; lia).
  reflexivity.
Qed.

Ltac push_byte_bits :=
  repeat match goal with
    | H : is_byte ?a |- context [Z.testbit ?a ?n] =>
        rewrite (byte_high_bits a n H) by lia
    | _ => progress push_bits
    end.

Lemma le_bytes_of_word b0 b1 b2 b3 :
  is_byte b0 → is_byte b1 → is_byte b2 → is_byte b3 →
  le_bytes (Z.lor (Z.lor (Z.lor b0 (u32 (b1 ≪ 8))) (u32 (b2 ≪ 16)))
                  (u32 (b3 ≪ 24)))
  = [b0; b1; b2; b3].
Proof.
  intros H0 H1 H2 H3. unfold le_bytes.
  change (Z.land ?v 0xFF) with (u8 v).
  repeat f_equal; apply Z.bits_inj'; intros i Hi;
    (destruct (Z.lt_ge_cases i 8);
     [|destruct (Z.lt_ge_cases i 16);
       [|destruct (Z.lt_ge_cases i 24); [|destruct (Z.lt_ge_cases i 32)]]]);
    push_byte_bits; decide_ltb; same_bits.
Qed.

Lemma take_4_lookup (l : list Z) :
  (4 ≤ length l)%nat →
  take 4 l = [l !!! 0%nat; l !!! 1%nat; l !!! 2%nat; l !!! 3%nat].
Proof.
  destruct l as [|x0 [|x1 [|x2 [|x3 l]]]]; cbn [length]; intros H;
    try lia. reflexivity.
Qed.

(** X3: for a buffer of bytes, the word [read_u32_le] decodes at an offset
    is a 32-bit value, and storing it with [wrno_u32_le] writes back the very
    four bytes it was read from. *)
Theorem write_after_read_u32_le (buf : list Z) (o : nat) :
  Forall is_byte buf → (o + 4 ≤ length buf)%nat →
  word32 (read_u32_le buf o).1 ∧
  (read_u32_le buf o).2 = (o + 4)%nat ∧
  le_bytes (read_u32_le buf o).1 = take 4 (drop o buf) ∧
  wrno_u32_le buf o (read_u32_le buf o).1 = buf.
Proof.
  intros Hb Hlen.
  assert (Hbyte : ∀ k, (k < 4)%nat → is_byte (buf !!! (o + k)%nat))
    by (intros k Hk; apply Forall_lookup_total_1; [exact Hb | lia]).
  assert (Hle : le_bytes (read_u32_le buf o).1
                = [buf !!! o; buf !!! (o + 1)%nat; buf !!! (o + 2)%nat;
                   buf !!! (o + 3)%nat]).
  { unfold read_u32_le. cbn [fst].
    pose proof (Hbyte 0%nat ltac:(lia)) as H0. rewrite Nat.add_0_r in H0.
    apply le_bytes_of_word; [exact H0 | apply Hbyte; lia..]. }
  assert (Hquad : take 4 (drop o buf)
                  = [buf !!! o; buf !!! (o + 1)%nat; buf !!! (o + 2)%nat;
                     buf !!! (o + 3)%nat]).
  { rewrite take_4_lookup by (rewrite length_drop; lia).
    rewrite !lookup_total_drop, Nat.add_0_r. reflexivity. }
  split.
  { unfold read_u32_le. cbn [fst].
    pose proof (Hbyte 0%nat ltac:(lia)) as H0. rewrite Nat.add_0_r in H0.
    assert (Hw0 : word32 (buf !!! o)) by (unfold is_byte, word32 in *; lia).
    repeat apply lor_word32; try apply u32_word32. exact Hw0. }
  split; [reflexivity|].
  split; [rewrite Hle, Hquad; reflexivity|].
  rewrite (wrno_u32_le_writes_four_bytes_aux buf o (read_u32_le buf o).1 Hlen).
  rewrite Hle, <- Hquad.
  rewrite <- (take_drop o buf) at 4. f_equal.
  rewrite <- (take_drop 4 (drop o buf)) at 2. f_equal.
  rewrite drop_drop. reflexivity.
Qed.

Lemma write_after_read_u32_le_witness :
  Forall is_byte [0x10; 0x20; 0x30; 0x40; 0x50] ∧
  (1 + 4 ≤ length [0x10; 0x20; 0x30; 0x40; 0x50])%nat ∧
  wrno_u32_le [0x10; 0x20; 0x30; 0x40; 0x50] 1
    (read_u32_le [0x10; 0x20; 0x30; 0x40; 0x50] 1).1
  = [0x10; 0x20; 0x30; 0x40; 0x50].
Proof.
  assert (Hb : Forall is_byte [0x10; 0x20; 0x30; 0x40; 0x50])
    by (unfold is_byte; repeat constructor; lia).
  split; [exact Hb|]. split; [cbn [length]; lia|].
  exact (proj2 (proj2 (proj2
           (write_after_read_u32_le [0x10; 0x20; 0x30; 0x40; 0x50] 1 Hb
              ltac:(cbn [length]; lia))))).
Defined.
